(** * Document insight extraction: text chunker and insight cache

    A shallow embedding of
    - [src/lambda/document_processor/text_chunker.py] (class [TextChunker]),
    - [src/lambda/insight_extractor/cache_manager.py] (class [CacheManager]),
    - [src/lambda/insight_extractor/insight_generator.py] (the parsing and
      validation of the model response),
    - [src/lambda/image_insights/image_insights.py] (the request handler),
    followed by the properties that the specification states about the
    first two, and by further properties of all four.

    Python integers are unbounded, hence [Z].  A Python [str] is a
    sequence of code points; the embedding fixes the alphabet to the 8-bit
    code points ([ascii]), which contains every separator the chunker
    looks for.  Loops that Python runs with [while] or through recursion
    take a [fuel] argument: [None] means that the fuel ran out, and a
    computation that returns [None] for every fuel does not terminate. *)

From Stdlib Require Import ZArith Lia Ascii String List.
From stdpp Require Import base option list strings gmap sorting.
Import ListNotations.
Open Scope Z_scope.

(* ===================================================================== *)
(** * Part I: definitions                                                 *)
(* ===================================================================== *)

Module Chunker.

(** ** Python strings *)

Definition str := list ascii.

(** A string literal. *)
Definition lit (s : string) : str := list_ascii_of_string s.

(** [len(x)] *)
Definition len {A} (l : list A) : Z := Z.of_nat (length l).

(** Truth value of a sequence: [if x:] *)
Definition nonempty {A} (l : list A) : bool :=
  match l with [] => false | _ :: _ => true end.

(** [str.isspace] on one code point below 256: TAB, LF, VT, FF, CR,
    FS, GS, RS, US, SPACE, NEL and NBSP. *)
Definition isspace (ch : ascii) : bool :=
  let n := N_of_ascii ch in
  (((9 <=? n) && (n <=? 13)) || ((28 <=? n) && (n <=? 32))
   || (n =? 133) || (n =? 160))%N.

Fixpoint lstrip (s : str) : str :=
  match s with
  | ch :: s' => if isspace ch then lstrip s' else s
  | [] => []
  end.

Definition rstrip (s : str) : str := rev (lstrip (rev s)).

(** [s.strip()] *)
Definition strip (s : str) : str := rstrip (lstrip s).

Fixpoint startswith (p s : str) : bool :=
  match p, s with
  | [], _ => true
  | a :: p', b :: s' => Ascii.eqb a b && startswith p' s'
  | _ :: _, [] => false
  end.

(** [sep in s] *)
Fixpoint contains (sep s : str) : bool :=
  startswith sep s
  || match s with [] => false | _ :: s' => contains sep s' end.

(** [s.split(sep)] for a non-empty [sep]: occurrences are found from the
    left and do not overlap.  [skip] counts the characters of a matched
    separator that are still to be passed over. *)
Fixpoint split_scan (sep s : str) (skip : nat) (piece : str) : list str :=
  match s with
  | [] => [piece]
  | ch :: s' =>
      match skip with
      | S k => split_scan sep s' k piece
      | O => if startswith sep s
             then piece :: split_scan sep s' (length sep - 1) []
             else split_scan sep s' 0 (piece ++ [ch])
      end
  end.

Definition split (s sep : str) : list str := split_scan sep s 0 [].

(** How Python resolves one bound of a slice against a length [n]. *)
Definition clamp_index (n i : Z) : Z :=
  if i <? 0 then Z.max 0 (i + n) else Z.min i n.

(** [s[start:stop]]; [stop = None] is [s[start:]]. *)
Definition py_slice (s : str) (start : Z) (stop : option Z) : str :=
  let n := len s in
  let a := clamp_index n start in
  let b := match stop with Some e => clamp_index n e | None => n end in
  take (Z.to_nat (b - a)) (drop (Z.to_nat a) s).

(** [l.index(x)]: position of the first occurrence.  Python raises when
    [x] is absent; the chunker only asks for the element the enclosing
    [for] loop has just taken from [l], so that case is out of reach
    (here it yields [length l]). *)
Fixpoint index_of (x : str) (l : list str) : nat :=
  match l with
  | [] => O
  | y :: l' => if decide (x = y) then O else S (index_of x l')
  end.

(** ** [TextChunker] *)

(** The two constructor arguments; [__init__] stores them unchanged. *)
Record TextChunker := { chunk_size : Z; chunk_overlap : Z }.

Definition chars_per_token : Z := 4.
Definition max_chars (c : TextChunker) : Z := chunk_size c * chars_per_token.
Definition overlap_chars (c : TextChunker) : Z := chunk_overlap c * chars_per_token.

(** The default configuration, [TextChunker()]. *)
Definition default_chunker : TextChunker :=
  {| chunk_size := 5000; chunk_overlap := 819 |}.

(** *** [_split_by_characters] *)

(** The value [start] takes at the end of one iteration of the loop. *)
Definition next_start (c : TextChunker) (start : Z) : Z :=
  let end_ := start + max_chars c in
  if overlap_chars c >? 0 then end_ - overlap_chars c else end_.

(** [while start < len(text): ...], the state being [(start, chunks)]. *)
Fixpoint split_by_characters_loop (fuel : nat) (c : TextChunker) (text : str)
    (start : Z) (chunks : list str) : option (list str) :=
  if start <? len text then
    match fuel with
    | O => None
    | S fuel' =>
        let end_ := start + max_chars c in
        let chunk := py_slice text start (Some end_) in
        split_by_characters_loop fuel' c text (next_start c start) (chunks ++ [chunk])
    end
  else Some chunks.

Definition split_by_characters (fuel : nat) (c : TextChunker) (text : str)
    : option (list str) :=
  split_by_characters_loop fuel c text 0 [].

(** *** [_split_text_recursive] *)

(** [if current_chunk: chunks.append(current_chunk.strip())] *)
Definition close_chunk (chunks : list str) (current_chunk : str) : list str :=
  if nonempty current_chunk then chunks ++ [strip current_chunk] else chunks.

(** One iteration of [for split in splits], on the state
    [(chunks, current_chunk)].  [recurse] is the recursive call on the
    remaining separators. *)
Definition add_split (c : TextChunker) (recurse : str -> option (list str))
    (separator : str) (st : list str * str) (piece : str)
    : option (list str * str) :=
  let '(chunks, current_chunk) := st in
  let split_with_sep := if nonempty separator then piece ++ separator else piece in
  if len current_chunk + len split_with_sep <=? max_chars c
  then Some (chunks, current_chunk ++ split_with_sep)
  else
    let chunks := close_chunk chunks current_chunk in
    let current_chunk :=
      if nonempty chunks && (overlap_chars c >? 0)
      then py_slice (List.last chunks []) (- overlap_chars c) None ++ split_with_sep
      else split_with_sep in
    if len current_chunk >? max_chars c
    then sub_chunks ← recurse current_chunk;
         Some (chunks ++ removelast sub_chunks, List.last sub_chunks [])
    else Some (chunks, current_chunk).

Fixpoint for_splits (c : TextChunker) (recurse : str -> option (list str))
    (separator : str) (splits : list str) (st : list str * str)
    : option (list str * str) :=
  match splits with
  | [] => Some st
  | piece :: rest =>
      st' ← add_split c recurse separator st piece;
      for_splits c recurse separator rest st'
  end.

(** [for separator in separators: ...] followed by the fallback after the
    loop.  [todo] is what the loop has still to visit, [separators] the
    whole list, which [separators.index(separator)] searches. *)
Fixpoint try_separators (c : TextChunker)
    (self_split : str -> list str -> option (list str))
    (by_chars : str -> option (list str))
    (text : str) (separators todo : list str) : option (list str) :=
  match todo with
  | [] => by_chars text
  | separator :: todo' =>
      if negb (nonempty separator) then by_chars text
      else if contains separator text then
        let splits := split text separator in
        let remaining_separators :=
          drop (S (index_of separator separators)) separators in
        st ← for_splits c (fun t => self_split t remaining_separators)
               separator splits ([], []);
        Some (close_chunk st.1 st.2)
      else try_separators c self_split by_chars text separators todo'
  end.

Fixpoint split_text_recursive (fuel : nat) (c : TextChunker) (text : str)
    (separators : list str) : option (list str) :=
  match fuel with
  | O => None
  | S fuel' =>
      if len text <=? max_chars c
      then Some (if nonempty text then [text] else [])
      else try_separators c (split_text_recursive fuel' c)
             (split_by_characters fuel' c) text separators separators
  end.

(** *** [_recursive_split] *)

Definition newline : str := ["010"%char].

Definition separators : list str :=
  [ newline ++ newline; newline; lit ". "; lit "! "; lit "? "; lit "; ";
    lit ", "; lit " "; [] ].

Definition recursive_split (fuel : nat) (c : TextChunker) (text : str)
    : option (list str) :=
  split_text_recursive fuel c text separators.

(** *** [chunk_text] *)

Record Metadata := { docId : str; pageRange : str; chunkIndex : Z }.
Record Chunk := { text : str; metadata : Metadata }.

(** [enumerate(l)], counting from [n]. *)
Fixpoint enumerate_from {A} (n : Z) (l : list A) : list (Z * A) :=
  match l with
  | [] => []
  | x :: l' => (n, x) :: enumerate_from (n + 1) l'
  end.

Definition make_chunk (doc_id page_range : str) (idx : Z) (chunk_text : str) : Chunk :=
  {| text := chunk_text;
     metadata := {| docId := doc_id; pageRange := page_range; chunkIndex := idx |} |}.

Definition chunk_text (fuel : nat) (c : TextChunker) (txt page_range doc_id : str)
    : option (list Chunk) :=
  if negb (nonempty txt) || negb (nonempty (strip txt)) then Some []
  else
    chunks ← recursive_split fuel c txt;
    Some (fold_left
            (fun chunk_dicts '(idx, chunk_text) =>
               chunk_dicts ++ [make_chunk doc_id page_range idx chunk_text])
            (enumerate_from 0 chunks) []).

(** *** [estimate_token_count] *)

(** [len(text) // self.chars_per_token] *)
Definition estimate_token_count (txt : str) : Z := len txt / chars_per_token.

(** ** What the specification says about coverage

    The two definitions below follow the words of the specification, not
    the code: chunk texts are concatenated after the first
    [overlap] characters of every chunk but the first are removed, and
    two texts are compared up to whitespace.  Deleting all whitespace
    from both sides forgives any trimming at chunk boundaries. *)

Definition reassemble (overlap : Z) (chunks : list str) : str :=
  match chunks with
  | [] => []
  | first :: rest => first ++ concat (map (fun ch => py_slice ch overlap None) rest)
  end.

Definition without_whitespace (s : str) : str :=
  List.filter (fun ch => negb (isspace ch)) s.

End Chunker.

Module Cache.

(** ** The store

    The table has partition key [docId] and sort key
    [extractionTimestamp]: a map from the pair to the remaining
    attributes.  An item, as a query returns it, is the key together with
    those attributes. *)

(** The [insights] dictionary; the cache never looks inside it. *)
Definition Insights := list (string * string).

Record Attrs := {
  prompt : string;
  insights : Insights;
  modelId : string;
  chunkCount : Z;
  expiresAt : Z
}.

Definition Key : Type := string * Z.
Definition Item : Type := Key * Attrs.
Definition docId (it : Item) : string := it.1.1.
Definition extractionTimestamp (it : Item) : Z := it.1.2.

(** The world a call runs in: the table, the clock that [time.time()]
    reads (in whole seconds), and a schedule that says, for each request
    the store will receive next, whether it fails ([true]).  Beyond its
    end the schedule holds no failure. *)
Record World := {
  table : gmap Key Attrs;
  clock : Z;
  faults : list bool
}.

(** ** Computations that may raise *)

Inductive outcome (A : Type) : Type :=
| Returned (a : A)
| Raised.
Arguments Returned {A} a.
Arguments Raised {A}.

Definition Op (A : Type) : Type := World -> outcome A * World.

Definition ret {A} (a : A) : Op A := fun w => (Returned a, w).

Definition bind {A B} (m : Op A) (f : A -> Op B) : Op B :=
  fun w => match m w with
           | (Returned a, w') => f a w'
           | (Raised, w') => (Raised, w')
           end.

Global Instance Op_ret : MRet Op := @ret.
Global Instance Op_bind : MBind Op := fun A B f m => bind m f.

(** [try: body / except Exception: return fallback] *)
Definition try_except {A} (body : Op A) (fallback : A) : World -> A * World :=
  fun w => match body w with
           | (Returned a, w') => (a, w')
           | (Raised, w') => (fallback, w')
           end.

(** One request to the store: it consumes the head of the schedule and
    raises when that says so. *)
Definition request : Op unit :=
  fun w =>
    match faults w with
    | true :: fs => (Raised, {| table := table w; clock := clock w; faults := fs |})
    | false :: fs => (Returned tt, {| table := table w; clock := clock w; faults := fs |})
    | [] => (Returned tt, w)
    end.

(** [int(time.time())] *)
Definition time_now : Op Z := fun w => (Returned (clock w), w).

Definition get_table : Op (gmap Key Attrs) := fun w => (Returned (table w), w).

Definition set_table (tbl : gmap Key Attrs) : Op unit :=
  fun w => (Returned tt, {| table := tbl; clock := clock w; faults := faults w |}).

(** ** The three table operations the cache manager calls *)

Definition older (a b : Item) : Prop :=
  extractionTimestamp a <= extractionTimestamp b.

Global Instance older_dec a b : Decision (older a b) := Z_le_dec _ _.

(** All items of one partition, by ascending sort key. *)
Definition partition_of (tbl : gmap Key Attrs) (doc : string) : list Item :=
  merge_sort older
    (map_to_list (filter (fun kv : Key * Attrs => kv.1.1 = doc) tbl)).

(** What [table.query(KeyConditionExpression=Key('docId').eq(doc),
    FilterExpression=..., ScanIndexForward=..., Limit=...)] selects.
    The store reads the partition in sort-key order, descending when
    [ScanIndexForward] is false; [Limit] bounds the number of items it
    evaluates, and the filter expression is applied afterwards, to the
    items evaluated.  The response is taken to fit a single page. *)
Definition select (tbl : gmap Key Attrs) (doc : string)
    (filter_expression : Item -> bool) (scan_index_forward : bool)
    (limit : option nat) : list Item :=
  let part := partition_of tbl doc in
  let ordered := if scan_index_forward then part else rev part in
  let evaluated := match limit with Some n => take n ordered | None => ordered end in
  List.filter filter_expression evaluated.

Definition table_query (doc : string) (filter_expression : Item -> bool)
    (scan_index_forward : bool) (limit : option nat) : Op (list Item) :=
  request;;
  tbl ← get_table;
  mret (select tbl doc filter_expression scan_index_forward limit).

(** [table.put_item(Item=it)]: creates the item or replaces the one
    stored under the same key. *)
Definition table_put_item (it : Item) : Op unit :=
  request;;
  tbl ← get_table;
  set_table (<[it.1 := it.2]> tbl).

(** [table.delete_item(Key=k)] *)
Definition table_delete_item (k : Key) : Op unit :=
  request;;
  tbl ← get_table;
  set_table (delete k tbl).

(** ** [CacheManager] *)

Definition ttl_hours : Z := 24.

Definition check_cache (doc_id prompt_ : string) : World -> option Item * World :=
  try_except
    (current_time ← time_now;
     items ← table_query doc_id
               (fun it => bool_decide (prompt it.2 = prompt_)
                          && (expiresAt it.2 >? current_time))
               false (Some 1%nat);
     match items with
     | cached_item :: _ => mret (Some cached_item)
     | [] => mret None
     end)
    None.

Definition store_in_cache (doc_id prompt_ : string) (insights_ : Insights)
    (model_id : string) (chunk_count : Z) : World -> bool * World :=
  try_except
    (timestamp ← time_now;
     let expires_at := timestamp + ttl_hours * 3600 in
     let item := ((doc_id, timestamp),
                  {| prompt := prompt_; insights := insights_;
                     modelId := model_id; chunkCount := chunk_count;
                     expiresAt := expires_at |}) in
     table_put_item item;;
     mret true)
    false.

Definition get_all_insights (doc_id : string) : World -> list Item * World :=
  try_except
    (current_time ← time_now;
     items ← table_query doc_id (fun it => expiresAt it.2 >? current_time)
               false None;
     mret items)
    [].

(** [for item in items: delete_item(...); deleted_count += 1] *)
Fixpoint delete_each (items : list Item) (deleted_count : Z) : Op Z :=
  match items with
  | [] => mret deleted_count
  | item :: rest =>
      table_delete_item (docId item, extractionTimestamp item);;
      delete_each rest (deleted_count + 1)
  end.

Definition invalidate_cache (doc_id : string) : World -> Z * World :=
  try_except
    (items ← table_query doc_id (fun _ => true) true None;
     deleted_count ← delete_each items 0;
     mret deleted_count)
    0.

(** ** Running a sequence of [store_in_cache] calls *)

Record StoreCall := {
  call_time : Z;
  call_doc : string;
  call_prompt : string;
  call_insights : Insights;
  call_model : string;
  call_chunks : Z
}.

Definition set_clock (t : Z) (w : World) : World :=
  {| table := table w; clock := t; faults := faults w |}.

Definition run_store_call (w : World) (sc : StoreCall) : World :=
  (store_in_cache (call_doc sc) (call_prompt sc) (call_insights sc)
     (call_model sc) (call_chunks sc) (set_clock (call_time sc) w)).2.

Definition run_store_calls (calls : list StoreCall) (w : World) : World :=
  fold_left run_store_call calls w.

(** ** The lookup as the specification words it

    Among all entries of the document whose prompt is the given one and
    whose [expiresAt] is greater than the current time, the one with the
    greatest [extractionTimestamp]. *)

Definition newer_of (best : option Item) (it : Item) : option Item :=
  match best with
  | None => Some it
  | Some b => if extractionTimestamp b <? extractionTimestamp it
              then Some it else Some b
  end.

Definition lookup_as_specified (w : World) (doc_id prompt_ : string) : option Item :=
  fold_left newer_of
    (List.filter
       (fun it : Item => bool_decide (docId it = doc_id)
                         && bool_decide (prompt it.2 = prompt_)
                         && (expiresAt it.2 >? clock w))
       (map_to_list (table w)))
    None.


(** A store that answers every request it will receive. *)
Definition quiet (w : World) : Prop := Forall (fun b => b = false) (faults w).

(** The number of entries stored for a document, expired or not. *)
Definition entries_of (w : World) (doc_id : string) : nat :=
  size (filter (fun kv : Key * Attrs => kv.1.1 = doc_id) (table w)).

End Cache.

(** ** Concrete inputs used in the examples *)

Module Examples.
Import Chunker Cache.

(** A budget of four characters without overlap, and the same budget with
    an overlap as large as the budget. *)
Definition tiny_chunker : TextChunker := {| chunk_size := 1; chunk_overlap := 0 |}.
Definition stuck_chunker : TextChunker := {| chunk_size := 1; chunk_overlap := 1 |}.

Definition answer (p : string) (stored_at : Z) : Attrs :=
  {| prompt := p; insights := [("summary", "text")]%string; modelId := "model";
     chunkCount := 3; expiresAt := stored_at + 86400 |}.

(** Document "d" was asked "p" at time 100 and "q" at time 200; it is now
    300, neither entry has expired, and the store answers every request. *)
Definition two_prompts_world : World :=
  {| table := <[("d"%string, 200) := answer "q" 200]>
                (<[("d"%string, 100) := answer "p" 100]> ∅);
     clock := 300;
     faults := [] |}.

(** The same table, with a store that answers the query and the first
    deletion and fails on the second. *)
Definition failing_world : World :=
  {| table := table two_prompts_world; clock := 300; faults := [false; false; true] |}.

(** An entry of "d" that expired long ago, a live one, and an entry of
    another document. *)
Definition mixed_world : World :=
  {| table := <[("d"%string, 200) := answer "q" 200]>
                (<[("d"%string, 100) := answer "p" 100]>
                   (<[("e"%string, 150) := answer "p" 150]> ∅));
     clock := 86550;
     faults := [false; false; false; false] |}.

(** The same table again, with a store that fails at once. *)
Definition down_world : World :=
  {| table := table two_prompts_world; clock := 300; faults := [true] |}.

Definition empty_world (now : Z) : World :=
  {| table := ∅; clock := now; faults := [] |}.

End Examples.

(** ** [src/lambda/insight_extractor/insight_generator.py]

    The two functions of [InsightGenerator] that work on the text the
    model returns; the call to the model itself is outside the
    embedding. *)

Module InsightGenerator.
Import Chunker.

(** A value as [json.loads] builds it. A float is kept as the pair
    (mantissa, exponent) of the dyadic number it denotes; no operation
    below computes with it. *)
#[warnings="-register-all"]
Inductive Json : Type :=
| JNull
| JBool (b : bool)
| JInt (z : Z)
| JFloat (mantissa exponent : Z)
| JStr (s : string)
| JList (l : list Json)
| JObj (m : gmap string Json).

Definition is_list (v : Json) : bool :=
  match v with JList _ => true | _ => false end.

(** [d.get(key, fallback)] *)
Definition dict_get (d : gmap string Json) (key : string) (fallback : Json) : Json :=
  match d !! key with Some v => v | None => fallback end.

(** [key in d] *)
Definition has_key (d : gmap string Json) (key : string) : bool :=
  match d !! key with Some _ => true | None => false end.

(** ** [_validate_insights_schema] *)

Definition required_fields : list string :=
  ["summary"; "keyPoints"; "entities"; "answer"]%string.

(** The body of [for field in required_fields]. *)
Definition add_default (insights : gmap string Json) (field : string)
    : gmap string Json :=
  if negb (has_key insights field) then
    if String.eqb field "keyPoints" then <[field := JList []]> insights
    else if String.eqb field "entities" then <[field := JList []]> insights
    else <[field := JStr ""]> insights
  else insights.

(** [if not isinstance(insights.get(field, []), list): insights[field] = []] *)
Definition ensure_list (field : string) (insights : gmap string Json)
    : gmap string Json :=
  if negb (is_list (dict_get insights field (JList [])))
  then <[field := JList []]> insights else insights.

(** [if field not in insights: insights[field] = value] *)
Definition ensure_key (field : string) (value : Json) (insights : gmap string Json)
    : gmap string Json :=
  if negb (has_key insights field) then <[field := value]> insights else insights.

(** The dictionary is changed in place; the model returns it. *)
Definition validate_insights_schema (insights : gmap string Json)
    : gmap string Json :=
  let insights := fold_left add_default required_fields insights in
  let insights := ensure_list "keyPoints" insights in
  let insights := ensure_list "entities" insights in
  let insights := ensure_key "metadata" (JObj ∅) insights in
  let insights := ensure_key "confidence" (JFloat 1 (-1)) insights in
  insights.

(** ** [_parse_response] *)

(** [s.find(sub)]: index of the first occurrence, [-1] when there is
    none.  [i] is the index of the head of [s]. *)
Fixpoint find_from (sub s : str) (i : Z) : Z :=
  if startswith sub s then i
  else match s with
       | [] => -1
       | _ :: s' => find_from sub s' (i + 1)
       end.
Definition find (s sub : str) : Z := find_from sub s 0.

(** [s.rfind(sub)]: index of the last occurrence, [-1] when there is
    none. *)
Fixpoint rfind_from (sub s : str) (i : Z) : Z :=
  match s with
  | [] => if startswith sub [] then i else -1
  | _ :: s' =>
      let later := rfind_from sub s' (i + 1) in
      if later =? -1 then (if startswith sub s then i else -1) else later
  end.
Definition rfind (s sub : str) : Z := rfind_from sub s 0.

(** What [json.loads] does with a text that starts with an opening
    brace (the only texts [_parse_response] hands to it, the empty slice
    apart): it builds a dictionary, raises [JSONDecodeError], or fails in
    some other way. *)
Inductive loaded : Type :=
| Loaded (d : gmap string Json)
| JSONDecodeError (message : string)
| LoadFailure.

Inductive exn : Type :=
| ValueError (message : string)
| OtherError.

Inductive result (A : Type) : Type :=
| Ok (a : A)
| Raise (e : exn).
Arguments Ok {A} a.
Arguments Raise {A} e.

Definition error_structure (message : string) : gmap string Json :=
  <["summary"%string := JStr "Error parsing model response"]>
  (<["keyPoints"%string := JList []]>
  (<["entities"%string := JList []]>
  (<["answer"%string := JStr "Unable to parse insights from model response"]>
  (<["confidence"%string := JFloat 0 0]>
  (<["metadata"%string :=
       JObj (<["error"%string := JStr message]>
             (<["relevance"%string := JStr "unknown"]> ∅))]> ∅))))).

Definition parse_response (json_loads : str -> loaded) (response_text : str)
    : result (gmap string Json) :=
  let json_start := find response_text (lit "{") in
  let json_end := rfind response_text (lit "}") + 1 in
  if (json_start =? -1) || (json_end =? 0)
  then Raise (ValueError "No JSON found in response")
  else
    let json_text := py_slice response_text json_start (Some json_end) in
    match json_loads json_text with
    | Loaded insights => Ok (validate_insights_schema insights)
    | JSONDecodeError message => Ok (error_structure message)
    | LoadFailure => Raise OtherError
    end.

(** The list a field holds, the empty one when it holds none. *)
Definition as_list (v : option Json) : Json :=
  match v with Some (JList l) => JList l | _ => JList [] end.

(** The shape [_validate_insights_schema] establishes. *)
Definition well_formed (insights : gmap string Json) : Prop :=
  (forall field, In field ["summary"; "keyPoints"; "entities"; "answer";
                           "metadata"; "confidence"]%string ->
                 is_Some (insights !! field))
  /\ (exists l, insights !! "keyPoints"%string = Some (JList l))
  /\ (exists l, insights !! "entities"%string = Some (JList l)).

End InsightGenerator.

(** ** [src/lambda/image_insights/image_insights.py]

    The request handler: who the caller is, where the request is routed
    and which response it gets.  The event is the dictionary the gateway
    delivers. *)

Module ImageInsights.
Import InsightGenerator.

(** ** Python values *)

(** [bool(v)] *)
Definition truthy (v : Json) : bool :=
  match v with
  | JNull => false
  | JBool b => b
  | JInt z => negb (z =? 0)
  | JFloat mantissa _ => negb (mantissa =? 0)
  | JStr s => negb (String.eqb s "")
  | JList l => match l with [] => false | _ :: _ => true end
  | JObj m => negb (bool_decide (m = ∅))
  end.

(** [type(v).__name__] for the values that are not dictionaries. *)
Definition type_name (v : Json) : string :=
  match v with
  | JNull => "NoneType"
  | JBool _ => "bool"
  | JInt _ => "int"
  | JFloat _ _ => "float"
  | JStr _ => "str"
  | JList _ => "list"
  | JObj _ => "dict"
  end.

(** [v == s] for a string literal [s]. *)
Definition is_str (v : Json) (s : string) : bool :=
  match v with JStr s' => String.eqb s' s | _ => false end.

(** A computation that returns or raises an exception with a message. *)
Inductive attempt (A : Type) : Type :=
| Done (a : A)
| Thrown (message : string).
Arguments Done {A} a.
Arguments Thrown {A} message.

Global Instance attempt_ret : MRet attempt := @Done.
Global Instance attempt_bind : MBind attempt :=
  fun A B f m => match m with Done a => f a | Thrown message => Thrown message end.

(** [v.get(key, fallback)]: only a dictionary has the method. *)
Definition py_get (v : Json) (key : string) (fallback : Json) : attempt Json :=
  match v with
  | JObj m => Done (dict_get m key fallback)
  | _ => Thrown ("'" ++ type_name v ++ "' object has no attribute 'get'")
  end.

(** ** [get_user_id_from_event] *)

(** [c.get('sub') or c.get('cognito:username') or c.get('username')] *)
Definition claimed_user (claims : Json) : attempt Json :=
  sub ← py_get claims "sub" JNull;
  if truthy sub then Done sub
  else
    name ← py_get claims "cognito:username" JNull;
    if truthy name then Done name
    else py_get claims "username" JNull.

(** The body of the [try]; [JNull] is Python's [None]. *)
Definition get_user_id_body (event : gmap string Json) : attempt Json :=
  let request_context := dict_get event "requestContext" (JObj ∅) in
  authorizer ← py_get request_context "authorizer" (JObj ∅);
  claims ← py_get authorizer "claims" (JObj ∅);
  from_claims ←
    (if truthy claims
     then user_id ← claimed_user claims;
          Done (if truthy user_id then Some user_id else None)
     else Done None);
  match from_claims with
  | Some user_id => Done user_id
  | None =>
      jwt ← py_get authorizer "jwt" (JObj ∅);
      from_jwt ←
        (if truthy jwt
         then jwt_claims ← py_get jwt "claims" (JObj ∅);
              user_id ← claimed_user jwt_claims;
              Done (if truthy user_id then Some user_id else None)
         else Done None);
      match from_jwt with
      | Some user_id => Done user_id
      | None => Done JNull
      end
  end.

Definition get_user_id_from_event (event : gmap string Json) : Json :=
  match get_user_id_body event with
  | Done user_id => user_id
  | Thrown _ => JNull
  end.

(** ** Responses *)

Definition get_cors_headers : list (string * string) :=
  [ ("Content-Type", "application/json");
    ("Access-Control-Allow-Origin", "*");
    ("Access-Control-Allow-Headers",
     "Content-Type,X-Amz-Date,Authorization,X-Api-Key,X-Amz-Security-Token");
    ("Access-Control-Allow-Methods", "POST,OPTIONS") ]%string.

(** [body] is the value handed to [json.dumps]. *)
Record Response := {
  statusCode : Z;
  headers : list (string * string);
  body : Json
}.

Definition error_response (status : Z) (message : Json) : Response :=
  {| statusCode := status; headers := get_cors_headers;
     body := JObj {[ "error"%string := message ]} |}.

(** ** [handle_analyze_image]

    Three collaborators are taken as arguments: [json.loads],
    [analyze_image_with_claude] (which returns a dictionary or raises)
    and [decode_qr_code] (which returns a string or [None] and never
    raises). *)
Section Handlers.
Variable json_loads : Json -> attempt Json.
Variable analyze_image_with_claude : Json -> Json -> attempt (gmap string Json).
Variable decode_qr_code : Json -> Json -> Json.

Definition handle_analyze_image_body (event : gmap string Json) : attempt Response :=
  let user_id := get_user_id_from_event event in
  if negb (truthy user_id) then Done (error_response 401 (JStr "Unauthorized"))
  else
    body ← json_loads (dict_get event "body" (JStr "{}"));
    image_base64 ← py_get body "image" JNull;
    prompt ← py_get body "prompt" (JStr "");
    if negb (truthy image_base64)
    then Done (error_response 400 (JStr "image (base64) is required"))
    else
      analysis_result ← analyze_image_with_claude image_base64 prompt;
      let analysis_result :=
        if truthy (dict_get analysis_result "qr_code_detected" JNull)
           && truthy (dict_get analysis_result "qr_bounding_box" JNull)
        then
          let qr_data :=
            decode_qr_code image_base64
              (dict_get analysis_result "qr_bounding_box" JNull) in
          if truthy qr_data
          then <["qr_code_data"%string := qr_data]> analysis_result
          else analysis_result
        else analysis_result in
      Done {| statusCode := 200; headers := get_cors_headers;
              body := JObj analysis_result |}.

Definition handle_analyze_image (event : gmap string Json) : Response :=
  match handle_analyze_image_body event with
  | Done response => response
  | Thrown _ => error_response 500 (JStr "Failed to analyze image")
  end.

(** ** [handler] *)

(** The method and the path of a request.  The fallback of the first
    [get] is an argument, so Python evaluates it whether or not
    [httpMethod] is present. *)
Definition resolve_route (event : gmap string Json) : attempt (Json * Json) :=
  http ← py_get (dict_get event "requestContext" (JObj ∅)) "http" (JObj ∅);
  method ← py_get http "method" (JStr "POST");
  let http_method := dict_get event "httpMethod" method in
  let path := dict_get event "path" (dict_get event "rawPath" (JStr "")) in
  Done (http_method, path).

Definition handler (event : gmap string Json) : Response :=
  match resolve_route event with
  | Done (http_method, path) =>
      if is_str http_method "POST" && is_str path "/image-insights/analyze"
      then handle_analyze_image event
      else error_response 404 (JStr "Endpoint not found")
  | Thrown message => error_response 500 (JStr message)
  end.

End Handlers.
End ImageInsights.

(** ** Requests used in the examples *)

Module Requests.
Import InsightGenerator ImageInsights.

Definition caller_claims : gmap string Json :=
  <["sub"%string := JStr "user-1"]> (<["username"%string := JStr "alice"]> ∅).

Definition caller_authorizer : gmap string Json :=
  <["claims"%string := JObj caller_claims]>
    (<["jwt"%string :=
         JObj {[ "claims"%string := JObj {[ "sub"%string := JStr "user-2" ]} ]}]> ∅).

Definition caller_context : gmap string Json :=
  {[ "authorizer"%string := JObj caller_authorizer ]}.

(** A well-formed request of an authenticated caller. *)
Definition analyze_event : gmap string Json :=
  <["httpMethod"%string := JStr "POST"]>
    (<["path"%string := JStr "/image-insights/analyze"]>
       (<["requestContext"%string := JObj caller_context]>
          (<["body"%string := JStr "{...}"]> ∅))).

(** The same request without an authorizer. *)
Definition anonymous_event : gmap string Json :=
  <["httpMethod"%string := JStr "POST"]>
    (<["path"%string := JStr "/image-insights/analyze"]> ∅).

(** A request for another route. *)
Definition status_event : gmap string Json :=
  <["httpMethod"%string := JStr "GET"]> (<["path"%string := JStr "/status"]> ∅).

(** A request whose context is [null]. *)
Definition null_context_event : gmap string Json :=
  <["httpMethod"%string := JStr "POST"]>
    (<["path"%string := JStr "/image-insights/analyze"]>
       (<["requestContext"%string := JNull]> ∅)).

(** Stand-ins for the collaborators. *)
Definition loads_image (_ : Json) : attempt Json :=
  Done (JObj {[ "image"%string := JStr "aGVsbG8=" ]}).

Definition loads_empty (_ : Json) : attempt Json := Done (JObj ∅).

Definition analysis_with_qr : gmap string Json :=
  <["qr_code_detected"%string := JBool true]>
    (<["qr_bounding_box"%string := JObj {[ "x"%string := JInt 0 ]}]>
       (<["is_valid_image"%string := JBool true]> ∅)).

Definition analyze_finds_qr (_ _ : Json) : attempt (gmap string Json) :=
  Done analysis_with_qr.

Definition analyze_fails (_ _ : Json) : attempt (gmap string Json) :=
  Thrown "throttled".

Definition decode_finds (_ _ : Json) : Json := JStr "https://example.org".

End Requests.

(* ===================================================================== *)
(** * Part II: the text chunker                                           *)
(* ===================================================================== *)

Import Chunker Examples.

(** ** Blank input *)

Lemma lstrip_blank (s : str) : forallb isspace s = true -> lstrip s = [].
Proof.
  induction s as [|ch s IH]; simpl; [done|].
  intros [Hch Hs]%andb_prop. rewrite Hch. auto.
Qed.

Lemma strip_blank (s : str) : forallb isspace s = true -> strip s = [].
Proof. intros H. unfold strip, rstrip. by rewrite (lstrip_blank s H). Qed.

(** C10.  A text that is empty or made of whitespace only yields the
    empty sequence of chunks: [chunk_text] returns (it does not fail, and
    it needs no fuel) and what it returns is [[]]. *)
Theorem chunk_text_blank_input (fuel : nat) (c : TextChunker) (txt page_range doc_id : str) :
  txt = [] \/ forallb isspace txt = true ->
  chunk_text fuel c txt page_range doc_id = Some [].
Proof.
  intros [-> | Hblank]; [reflexivity|].
  unfold chunk_text. rewrite (strip_blank txt Hblank).
  by rewrite orb_true_r.
Qed.

Lemma chunk_text_blank_input_witness :
  chunk_text 0 default_chunker (lit "  ") (lit "1-10") (lit "doc") = Some []
  /\ chunk_text 0 default_chunker [] (lit "1-10") (lit "doc") = Some [].
Proof.
  split.
  - apply chunk_text_blank_input. right. reflexivity.
  - apply chunk_text_blank_input. left. reflexivity.
Defined.

(** ** Chunk indices *)

Section Indices.
Variables doc_id page_range : str.

Let push (chunk_dicts : list Chunk) (p : Z * str) : list Chunk :=
  let '(idx, chunk_text) := p in
  chunk_dicts ++ [make_chunk doc_id page_range idx chunk_text].

Lemma fold_push_app (l : list (Z * str)) (acc : list Chunk) :
  fold_left push l acc = acc ++ fold_left push l [].
Proof.
  revert acc. induction l as [|[i t] l IH]; intros acc; simpl.
  - by rewrite app_nil_r.
  - rewrite IH. rewrite (IH [_]). by rewrite <- app_assoc.
Qed.

Lemma fold_push_indices (k : nat) (l : list str) :
  map (fun ch => chunkIndex (metadata ch))
      (fold_left push (enumerate_from (Z.of_nat k) l) [])
  = map Z.of_nat (seq k (length l)).
Proof.
  revert k. induction l as [|t l IH]; intros k; simpl; [done|].
  rewrite fold_push_app. simpl. f_equal.
  replace (Z.of_nat k + 1) with (Z.of_nat (S k)) by lia.
  apply IH.
Qed.

Lemma fold_push_length (n : Z) (l : list str) :
  length (fold_left push (enumerate_from n l) []) = length l.
Proof.
  revert n. induction l as [|t l IH]; intros n; simpl; [done|].
  rewrite fold_push_app. simpl. by rewrite IH.
Qed.

Lemma fold_push_texts (n : Z) (l : list str) :
  map text (fold_left push (enumerate_from n l) []) = l.
Proof.
  revert n. induction l as [|t l IH]; intros n; simpl; [done|].
  rewrite fold_push_app. simpl. by rewrite IH.
Qed.
End Indices.

(** What [chunk_text] returns, in terms of [recursive_split]. *)
Lemma chunk_text_texts fuel c txt page_range doc_id cs :
  chunk_text fuel c txt page_range doc_id = Some cs ->
  cs = [] \/ recursive_split fuel c txt = Some (map text cs).
Proof.
  unfold chunk_text. case_match; [intros [= <-]; by left|].
  destruct (recursive_split fuel c txt) as [chunks|] eqn:Hsplit; simpl; [|done].
  intros [= <-]. right. f_equal. symmetry.
  apply (fold_push_texts doc_id page_range 0 chunks).
Qed.

(** C9.  When [chunk_text] produces N chunks, their [chunkIndex] values,
    in output order, are 0, 1, ..., N-1. *)
Theorem chunk_index_sequential fuel c txt page_range doc_id (cs : list Chunk) :
  chunk_text fuel c txt page_range doc_id = Some cs ->
  map (fun ch => chunkIndex (metadata ch)) cs = map Z.of_nat (seq 0 (length cs)).
Proof.
  unfold chunk_text. case_match; [by intros [= <-]|].
  destruct (recursive_split fuel c txt) as [chunks|]; simpl; [|done].
  intros [= <-].
  rewrite (fold_push_length doc_id page_range 0 chunks).
  apply (fold_push_indices doc_id page_range 0 chunks).
Qed.

Lemma chunk_index_sequential_witness :
  map (fun ch => chunkIndex (metadata ch))
    [ make_chunk (lit "doc") (lit "1-10") 0 (lit "abcd");
      make_chunk (lit "doc") (lit "1-10") 1 (lit "efgh");
      make_chunk (lit "doc") (lit "1-10") 2 (lit "ij") ]
  = [0; 1; 2].
Proof.
  apply (chunk_index_sequential 5 tiny_chunker (lit "abcdefghij") (lit "1-10") (lit "doc")).
  vm_compute. reflexivity.
Defined.

(** ** Fuel

    More fuel never changes a result: a computation that returned keeps
    returning the same value. *)

Section Fuel.
Variable c : TextChunker.

Lemma split_by_characters_loop_mono fuel fuel' txt start chunks r :
  (fuel <= fuel')%nat ->
  split_by_characters_loop fuel c txt start chunks = Some r ->
  split_by_characters_loop fuel' c txt start chunks = Some r.
Proof.
  revert fuel' start chunks.
  induction fuel as [|fuel IH]; intros fuel' start chunks Hle; simpl.
  - destruct fuel'; simpl; destruct (start <? len txt); done.
  - destruct fuel' as [|fuel']; [lia|]. simpl.
    destruct (start <? len txt); [|done]. apply IH. lia.
Qed.

Lemma add_split_mono (f g : str -> option (list str)) sep st piece st' :
  (forall t r, f t = Some r -> g t = Some r) ->
  add_split c f sep st piece = Some st' ->
  add_split c g sep st piece = Some st'.
Proof.
  intros Hfg. destruct st as [chunks cur]. unfold add_split.
  destruct (_ <=? _); [done|].
  destruct (_ >? _); [|done].
  destruct (f _) as [sub|] eqn:Hf; simpl; [|done].
  by rewrite (Hfg _ _ Hf).
Qed.

Lemma for_splits_mono (f g : str -> option (list str)) sep splits st st' :
  (forall t r, f t = Some r -> g t = Some r) ->
  for_splits c f sep splits st = Some st' ->
  for_splits c g sep splits st = Some st'.
Proof.
  intros Hfg. revert st.
  induction splits as [|piece rest IH]; intros st; simpl; [done|].
  destruct (add_split c f sep st piece) as [st1|] eqn:Hadd; simpl; [|done].
  rewrite (add_split_mono f g _ _ _ _ Hfg Hadd). simpl. apply IH.
Qed.

Lemma try_separators_mono (f g : str -> list str -> option (list str))
    (cf cg : str -> option (list str)) txt seps todo r :
  (forall t s r, f t s = Some r -> g t s = Some r) ->
  (forall t r, cf t = Some r -> cg t = Some r) ->
  try_separators c f cf txt seps todo = Some r ->
  try_separators c g cg txt seps todo = Some r.
Proof.
  intros Hfg Hc.
  induction todo as [|sep todo IH]; simpl; [apply Hc|].
  destruct (negb (nonempty sep)); [apply Hc|].
  destruct (contains sep txt); [|apply IH].
  destruct (for_splits c _ sep _ _) as [st|] eqn:Hfor; simpl; [|done].
  intros [= <-].
  rewrite (for_splits_mono _ (fun t => g t (drop (S (index_of sep seps)) seps))
             _ _ _ _ (fun t r => Hfg t _ r) Hfor).
  done.
Qed.

Lemma split_text_recursive_mono fuel fuel' txt seps r :
  (fuel <= fuel')%nat ->
  split_text_recursive fuel c txt seps = Some r ->
  split_text_recursive fuel' c txt seps = Some r.
Proof.
  revert fuel' txt seps r.
  induction fuel as [|fuel IH]; intros fuel' txt seps r Hle; simpl; [done|].
  destruct fuel' as [|fuel']; [lia|]. simpl.
  destruct (len txt <=? max_chars c); [done|].
  apply try_separators_mono.
  - intros t s r'. apply IH. lia.
  - intros t r'. apply split_by_characters_loop_mono. lia.
Qed.

Lemma chunk_text_mono fuel fuel' txt page_range doc_id cs :
  (fuel <= fuel')%nat ->
  chunk_text fuel c txt page_range doc_id = Some cs ->
  chunk_text fuel' c txt page_range doc_id = Some cs.
Proof.
  intros Hle. unfold chunk_text, recursive_split. case_match; [done|].
  destruct (split_text_recursive fuel c txt separators) as [chunks|] eqn:Hs;
    simpl; [|done].
  by rewrite (split_text_recursive_mono _ _ _ _ _ Hle Hs).
Qed.

(** Whatever the fuel, there is at most one result. *)
Lemma chunk_text_fuel_irrelevant fuel1 fuel2 txt page_range doc_id cs1 cs2 :
  chunk_text fuel1 c txt page_range doc_id = Some cs1 ->
  chunk_text fuel2 c txt page_range doc_id = Some cs2 ->
  cs1 = cs2.
Proof.
  intros H1 H2.
  apply (chunk_text_mono _ (Nat.max fuel1 fuel2)) in H1; [|lia].
  apply (chunk_text_mono _ (Nat.max fuel1 fuel2)) in H2; [|lia].
  congruence.
Qed.
End Fuel.

(** ** Termination

    The character loop moves [start] by [max_chars - overlap_chars]
    (by [max_chars] when the overlap is not positive).  When that step is
    positive every call returns. *)

Section Termination.
Variable c : TextChunker.
Hypothesis Hstep : forall start, start < next_start c start.

Lemma split_by_characters_loop_total txt :
  forall n start chunks,
    (Z.to_nat (len txt - start) <= n)%nat ->
    is_Some (split_by_characters_loop n c txt start chunks).
Proof.
  induction n as [|n IH]; intros start chunks Hn; simpl.
  - destruct (start <? len txt) eqn:Hlt; [|done]. apply Z.ltb_lt in Hlt. lia.
  - destruct (start <? len txt) eqn:Hlt; [|done]. apply Z.ltb_lt in Hlt.
    apply IH. specialize (Hstep start). lia.
Qed.

Lemma split_by_characters_total txt :
  exists fuel, is_Some (split_by_characters fuel c txt).
Proof.
  exists (Z.to_nat (len txt)). apply split_by_characters_loop_total.
  replace (len txt - 0) with (len txt) by lia. done.
Qed.

Lemma for_splits_total (F : nat -> str -> option (list str)) sep :
  (forall n m t r, (n <= m)%nat -> F n t = Some r -> F m t = Some r) ->
  (forall t, exists n, is_Some (F n t)) ->
  forall splits st, exists n, is_Some (for_splits c (F n) sep splits st).
Proof.
  intros Hmono Htotal.
  induction splits as [|piece rest IH]; intros st; simpl; [by exists O|].
  assert (exists n1 st1, add_split c (F n1) sep st piece = Some st1)
    as (n1 & st1 & Hadd).
  { destruct st as [chunks cur]. unfold add_split.
    destruct (_ <=? _); [by eexists O, _|].
    destruct (_ >? _); [|by eexists O, _].
    match goal with |- context [F _ ?t] => destruct (Htotal t) as [n [sub Hn]] end.
    exists n. rewrite Hn. simpl. by eexists. }
  destruct (IH st1) as [n2 [st2 Hrest]].
  exists (Nat.max n1 n2).
  rewrite (add_split_mono c (F n1) (F (Nat.max n1 n2)) _ _ _ _
             (fun t r => Hmono n1 _ t r (Nat.le_max_l n1 n2)) Hadd).
  simpl.
  rewrite (for_splits_mono c (F n2) (F (Nat.max n1 n2)) _ _ _ _
             (fun t r => Hmono n2 _ t r (Nat.le_max_r n1 n2)) Hrest).
  done.
Qed.

Lemma try_separators_total (k : nat) (seps : list str) :
  (forall seps', (length seps' <= k)%nat ->
     forall t, exists fuel, is_Some (split_text_recursive fuel c t seps')) ->
  (length seps <= S k)%nat ->
  forall todo txt,
    exists fuel,
      is_Some (try_separators c (split_text_recursive fuel c)
                 (split_by_characters fuel c) txt seps todo).
Proof.
  intros IHk Hlen todo txt.
  induction todo as [|sep todo IH]; simpl; [apply split_by_characters_total|].
  destruct (negb (nonempty sep)); [apply split_by_characters_total|].
  destruct (contains sep txt); [|apply IH].
  set (remaining := drop (S (index_of sep seps)) seps).
  assert (length remaining <= k)%nat as Hrem.
  { subst remaining. rewrite length_drop. lia. }
  destruct (for_splits_total
              (fun n t => split_text_recursive n c t remaining) sep
              (fun n m t r Hle => split_text_recursive_mono c n m t remaining r Hle)
              (IHk remaining Hrem) (split txt sep) ([], [])) as [n [st Hst]].
  exists n. rewrite Hst. simpl. by eexists.
Qed.

Lemma split_text_recursive_total :
  forall k seps, (length seps <= k)%nat ->
    forall txt, exists fuel, is_Some (split_text_recursive fuel c txt seps).
Proof.
  induction k as [|k IHk]; intros seps Hlen txt.
  - destruct seps; [|simpl in Hlen; lia].
    destruct (split_by_characters_total txt) as [fuel Hfuel].
    exists (S fuel). simpl. by destruct (len txt <=? max_chars c).
  - destruct (try_separators_total k seps IHk Hlen seps txt) as [fuel Hfuel].
    exists (S fuel). simpl. by destruct (len txt <=? max_chars c).
Qed.

Lemma chunk_text_total txt page_range doc_id :
  exists fuel cs, forall fuel', (fuel <= fuel')%nat ->
    chunk_text fuel' c txt page_range doc_id = Some cs.
Proof.
  destruct (split_text_recursive_total (length separators) separators
              (Nat.le_refl _) txt) as [fuel [chunks Hsplit]].
  assert (is_Some (chunk_text fuel c txt page_range doc_id)) as [cs Hcs].
  { unfold chunk_text, recursive_split. case_match; [done|].
    rewrite Hsplit. simpl. done. }
  exists fuel, cs. intros fuel' Hle. by apply (chunk_text_mono c fuel).
Qed.
End Termination.

(** When the step is not positive the character loop never leaves a
    text it has entered. *)
Lemma split_by_characters_loop_stuck (c : TextChunker) (txt : str) :
  (forall start, next_start c start <= start) ->
  forall fuel start chunks,
    start < len txt ->
    split_by_characters_loop fuel c txt start chunks = None.
Proof.
  intros Hback. induction fuel as [|fuel IH]; intros start chunks Hlt; simpl.
  - apply Z.ltb_lt in Hlt. by rewrite Hlt.
  - pose proof Hlt as Hlt'. apply Z.ltb_lt in Hlt'. rewrite Hlt'.
    apply IH. specialize (Hback start). lia.
Qed.

(** That is the case of every configuration whose overlap is not below
    its size: the two numbers are used as given, and the character loop
    returns on the empty text only. *)
Lemma split_by_characters_diverges (c : TextChunker) (txt : str) (fuel : nat) :
  chunk_size c <= chunk_overlap c ->
  txt <> [] ->
  split_by_characters fuel c txt = None.
Proof.
  intros Hconf Htxt. unfold split_by_characters.
  apply split_by_characters_loop_stuck.
  - intros start. unfold next_start, max_chars, overlap_chars, chars_per_token.
    destruct (Z.gtb_spec (chunk_overlap c * 4) 0); lia.
  - unfold len. destruct txt; [done|]. simpl. lia.
Qed.

Lemma valid_step (c : TextChunker) :
  0 <= chunk_overlap c < chunk_size c ->
  forall start, next_start c start - start = max_chars c - overlap_chars c
                /\ start < next_start c start.
Proof.
  intros Hvalid start.
  unfold next_start, max_chars, overlap_chars, chars_per_token.
  destruct (Z.gtb_spec (chunk_overlap c * 4) 0); lia.
Qed.

(** C2, counterexample.  With [chunk_overlap = chunk_size = 1] (a budget
    and an overlap of four characters) the configuration is used as it
    is, nothing degrades the overlap to zero, and on the five-character
    text "abcde" no amount of fuel makes [chunk_text] return. *)
Lemma chunk_text_diverges_overlap_eq_size :
  ~ exists fuel cs,
      chunk_text fuel stuck_chunker (lit "abcde") (lit "1-10") (lit "doc") = Some cs.
Proof.
  intros (fuel & cs & H).
  destruct fuel as [|fuel]; [discriminate H|].
  unfold chunk_text, recursive_split in H. simpl in H.
  unfold split_by_characters in H.
  rewrite split_by_characters_loop_stuck in H; [discriminate H| |reflexivity].
  intros start.
  change (next_start stuck_chunker start) with (start + 4 - 4). lia.
Qed.

(** C2, as amended.  Whenever [0 <= chunk_overlap < chunk_size],
    [chunk_text] returns on every text (some amount of fuel suffices, and
    any larger amount gives the same chunks), and every iteration of the
    character-level fallback moves [start] forward by exactly
    [max_chars - overlap_chars] characters, which is positive and at
    least [chunk_size - chunk_overlap]. *)
Theorem chunk_text_terminates_valid_config (c : TextChunker) :
  0 <= chunk_overlap c < chunk_size c ->
  (forall txt page_range doc_id,
     exists fuel cs, forall fuel', (fuel <= fuel')%nat ->
       chunk_text fuel' c txt page_range doc_id = Some cs)
  /\ (forall start,
        next_start c start - start = max_chars c - overlap_chars c
        /\ next_start c start - start >= chunk_size c - chunk_overlap c
        /\ next_start c start - start > 0).
Proof.
  intros Hvalid. split.
  - intros txt page_range doc_id. apply chunk_text_total.
    intros start. by apply valid_step.
  - intros start. destruct (valid_step c Hvalid start) as [Heq Hlt].
    rewrite Heq in *. unfold max_chars, overlap_chars, chars_per_token in *. lia.
Qed.

Lemma chunk_text_terminates_valid_config_witness :
  0 <= chunk_overlap default_chunker < chunk_size default_chunker
  /\ (forall txt page_range doc_id,
        exists fuel cs, forall fuel', (fuel <= fuel')%nat ->
          chunk_text fuel' default_chunker txt page_range doc_id = Some cs)
  /\ (forall start,
        next_start default_chunker start - start
        = max_chars default_chunker - overlap_chars default_chunker
        /\ next_start default_chunker start - start
           >= chunk_size default_chunker - chunk_overlap default_chunker
        /\ next_start default_chunker start - start > 0).
Proof.
  assert (0 <= chunk_overlap default_chunker < chunk_size default_chunker) as Hvalid
    by (simpl; lia).
  split; [exact Hvalid|].
  exact (chunk_text_terminates_valid_config default_chunker Hvalid).
Defined.

(** ** The sentence example *)

(** C5, counterexample.  On "A. B. C." with a budget of four characters
    and no overlap the chunk texts are not "A. ", "B. ", "C.". *)
Lemma sentence_example_not_as_claimed :
  ~ exists fuel cs,
      chunk_text fuel tiny_chunker (lit "A. B. C.") (lit "1-10") (lit "doc") = Some cs
      /\ map text cs = [lit "A. "; lit "B. "; lit "C."].
Proof.
  intros (fuel & cs & Hrun & Htexts).
  assert (chunk_text 2 tiny_chunker (lit "A. B. C.") (lit "1-10") (lit "doc")
          = Some [ make_chunk (lit "doc") (lit "1-10") 0 (lit "A.");
                   make_chunk (lit "doc") (lit "1-10") 1 (lit "B.");
                   make_chunk (lit "doc") (lit "1-10") 2 (lit "C..") ]) as Hreal
    by (vm_compute; reflexivity).
  rewrite (chunk_text_fuel_irrelevant _ _ _ _ _ _ _ _ Hrun Hreal) in Htexts.
  discriminate Htexts.
Qed.

(** C5, as amended.  On "A. B. C." with a budget of four characters and
    no overlap, [chunk_text] finds no paragraph or line break, splits on
    the sentence separator ". " into the pieces "A", "B", "C.", and
    returns exactly three chunks with indices 0, 1, 2; every chunk is
    stripped of surrounding whitespace when it is closed, so the first
    two texts are "A." and "B.", and the third starts with "C.". *)
Theorem sentence_example_chunks :
  contains (newline ++ newline) (lit "A. B. C.") = false
  /\ contains newline (lit "A. B. C.") = false
  /\ split (lit "A. B. C.") (lit ". ") = [lit "A"; lit "B"; lit "C."]
  /\ exists third,
       chunk_text 2 tiny_chunker (lit "A. B. C.") (lit "1-10") (lit "doc")
       = Some [ make_chunk (lit "doc") (lit "1-10") 0 (lit "A.");
                make_chunk (lit "doc") (lit "1-10") 1 (lit "B.");
                make_chunk (lit "doc") (lit "1-10") 2 third ]
       /\ startswith (lit "C.") third = true.
Proof.
  repeat split; try reflexivity.
  exists (lit "C.."). split; vm_compute; reflexivity.
Qed.

(** ** Coverage *)

(** On the character-level path the property holds, and exactly: under
    a valid configuration consecutive slices share [overlap_chars]
    characters, and dropping them from every slice but the first gives
    the text back. *)

Lemma drop_take_drop {A} (l : list A) (i j : nat) :
  (i <= j)%nat -> drop i (take j l) ++ drop j l = drop i l.
Proof.
  intros Hij. rewrite <- (take_drop j l) at 3.
  rewrite skipn_app, length_take.
  destruct (decide (j <= length l)%nat) as [Hj|Hj].
  - by replace (i - j `min` length l)%nat with O by lia.
  - rewrite (drop_ge l j) by lia. by rewrite drop_nil.
Qed.

Section CharacterCoverage.
Variable c : TextChunker.
Hypothesis Hvalid : 0 <= chunk_overlap c < chunk_size c.

Lemma overlap_bounds : 0 <= overlap_chars c < max_chars c.
Proof. unfold overlap_chars, max_chars, chars_per_token. lia. Qed.

Lemma next_start_plus_overlap start :
  next_start c start + overlap_chars c = start + max_chars c.
Proof.
  pose proof overlap_bounds. unfold next_start.
  destruct (Z.gtb_spec (overlap_chars c) 0); lia.
Qed.

Lemma chunk_tail_covers (txt : str) (start : Z) :
  0 <= start < len txt ->
  py_slice (py_slice txt start (Some (start + max_chars c))) (overlap_chars c) None
  ++ drop (Z.to_nat (Z.min (start + max_chars c) (len txt))) txt
  = drop (Z.to_nat (Z.min (start + overlap_chars c) (len txt))) txt.
Proof.
  intros Hstart. pose proof overlap_bounds as Hov.
  unfold py_slice at 1. 
  set (chunk := py_slice txt start (Some (start + max_chars c))).
  assert (len chunk = Z.min (start + max_chars c) (len txt) - start) as Hlen.
  { subst chunk. unfold py_slice, len, clamp_index in *.
    rewrite length_take, length_drop.
    destruct (Z.ltb_spec start 0); [lia|].
    destruct (Z.ltb_spec (start + max_chars c) 0); lia. }
  assert (chunk = take (Z.to_nat (Z.min (start + max_chars c) (len txt) - start))
                    (drop (Z.to_nat start) txt)) as Hchunk.
  { subst chunk. unfold py_slice, clamp_index.
    destruct (Z.ltb_spec start 0); [lia|].
    destruct (Z.ltb_spec (start + max_chars c) 0); [lia|].
    f_equal; [|f_equal]; lia. }
  unfold clamp_index. destruct (Z.ltb_spec (overlap_chars c) 0); [lia|].
  rewrite take_ge by (rewrite length_drop; unfold len in *; lia).
  rewrite Hlen. rewrite Hchunk at 1.
  set (b := Z.min (start + max_chars c) (len txt)).
  replace (drop (Z.to_nat b) txt)
    with (drop (Z.to_nat (b - start)) (drop (Z.to_nat start) txt)).
  2:{ rewrite drop_drop. f_equal. lia. }
  rewrite drop_take_drop by lia.
  rewrite drop_drop. f_equal. lia.
Qed.

Lemma split_by_characters_loop_covers (txt : str) :
  forall fuel start acc r,
    0 <= start ->
    split_by_characters_loop fuel c txt start acc = Some r ->
    exists new,
      r = acc ++ new
      /\ concat (map (fun ch => py_slice ch (overlap_chars c) None) new)
         = drop (Z.to_nat (Z.min (start + overlap_chars c) (len txt))) txt.
Proof.
  pose proof overlap_bounds as Hov.
  induction fuel as [|fuel IH]; intros start acc r Hstart; simpl.
  - destruct (Z.ltb_spec start (len txt)); [done|]. intros [= <-].
    exists []. rewrite app_nil_r. split; [done|]. simpl.
    rewrite drop_ge; [done|]. unfold len in *. lia.
  - destruct (Z.ltb_spec start (len txt)).
    + intros Hrun. apply IH in Hrun as (new & -> & Hnew).
      2:{ destruct (valid_step c Hvalid start). lia. }
      eexists (_ :: new). rewrite <- app_assoc. split; [done|].
      simpl. rewrite Hnew, next_start_plus_overlap.
      by apply chunk_tail_covers.
    + intros [= <-].
      exists []. rewrite app_nil_r. split; [done|]. simpl.
      rewrite drop_ge; [done|]. unfold len in *. lia.
Qed.

Lemma split_by_characters_reassembles fuel (txt : str) r :
  split_by_characters fuel c txt = Some r ->
  reassemble (overlap_chars c) r = txt.
Proof.
  pose proof overlap_bounds as Hov.
  unfold split_by_characters.
  assert (len txt <= 0 -> txt = []) as Hnil.
  { unfold len. destruct txt; simpl; [done|lia]. }
  destruct fuel as [|fuel]; simpl.
  - destruct (Z.ltb_spec 0 (len txt)); [done|]. intros [= <-]. simpl. symmetry. auto.
  - destruct (Z.ltb_spec 0 (len txt)).
    + intros Hrun. apply split_by_characters_loop_covers in Hrun as (new & -> & Hnew).
      2:{ destruct (valid_step c Hvalid 0). lia. }
      simpl. rewrite Hnew, next_start_plus_overlap.
      unfold py_slice, clamp_index. change (0 <? 0) with false. cbv iota.
      destruct (Z.ltb_spec (0 + max_chars c) 0); [lia|].
      replace (Z.to_nat (Z.min 0 (len txt))) with O by lia.
      replace (Z.to_nat (Z.min (0 + max_chars c) (len txt) - Z.min 0 (len txt)))
        with (Z.to_nat (Z.min (0 + max_chars c) (len txt))) by lia.
      apply take_drop.
    + intros [= <-]. simpl. symmetry. auto.
Qed.
End CharacterCoverage.

(** C1.  On "A. B. C." with a budget of four characters and no overlap
    the chunks are "A.", "B.", "C..": the separator is appended to the
    last piece as well, so the reassembled text "A.B.C.." carries a full
    stop the input does not have, and differs from the input even after
    all whitespace is removed from both. *)
Theorem chunks_do_not_reassemble_sentences :
  exists cs,
    chunk_text 2 tiny_chunker (lit "A. B. C.") (lit "1-10") (lit "doc") = Some cs
    /\ map text cs = [lit "A."; lit "B."; lit "C.."]
    /\ reassemble (overlap_chars tiny_chunker) (map text cs) = lit "A.B.C.."
    /\ without_whitespace (reassemble (overlap_chars tiny_chunker) (map text cs))
       <> without_whitespace (lit "A. B. C.").
Proof.
  eexists. split; [vm_compute; reflexivity|].
  repeat split; try (vm_compute; reflexivity).
  vm_compute. discriminate.
Qed.

(** ** Chunk texts *)

(** C4.  On "abcd " with a budget of four characters and no overlap the
    second chunk is empty: the buffer that holds the separator alone is
    tested for emptiness before it is stripped, not after. *)
Theorem chunk_text_emits_empty_chunk :
  chunk_text 4 tiny_chunker (lit "abcd ") (lit "1-10") (lit "doc")
  = Some [ make_chunk (lit "doc") (lit "1-10") 0 (lit "abcd");
           make_chunk (lit "doc") (lit "1-10") 1 [] ].
Proof. vm_compute. reflexivity. Qed.

(** The other half of what the specification asks of a chunk does hold,
    and for the last chunk too: under a valid configuration no chunk is
    longer than the character budget. *)

Section Budget.
Variable c : TextChunker.
Hypothesis Hvalid : 0 <= chunk_overlap c < chunk_size c.

Let fits (s : str) : Prop := len s <= max_chars c.

Lemma budget_nonneg : 0 <= max_chars c.
Proof. unfold max_chars, chars_per_token. lia. Qed.

Lemma py_slice_fits (txt : str) (start : Z) :
  0 <= start -> fits (py_slice txt start (Some (start + max_chars c))).
Proof.
  intros Hstart. pose proof budget_nonneg as Hmax.
  unfold fits, py_slice, len, clamp_index.
  rewrite length_take, length_drop.
  destruct (Z.ltb_spec start 0); [lia|].
  destruct (Z.ltb_spec (start + max_chars c) 0); lia.
Qed.

Lemma split_by_characters_loop_fits txt :
  forall fuel start chunks r,
    0 <= start -> Forall fits chunks ->
    split_by_characters_loop fuel c txt start chunks = Some r ->
    Forall fits r.
Proof.
  induction fuel as [|fuel IH]; intros start chunks r Hstart Hchunks; simpl.
  - destruct (start <? len txt); [done|]. by intros [= <-].
  - destruct (start <? len txt); [|by intros [= <-]].
    apply IH.
    + destruct (valid_step c Hvalid start). lia.
    + apply Forall_app. split; [done|].
      constructor; [by apply py_slice_fits|constructor].
Qed.

Lemma lstrip_length (s : str) : (length (lstrip s) <= length s)%nat.
Proof.
  induction s as [|ch s IH]; simpl; [lia|].
  destruct (isspace ch); simpl; lia.
Qed.

Lemma strip_length (s : str) : (length (strip s) <= length s)%nat.
Proof.
  unfold strip, rstrip. rewrite length_rev.
  pose proof (lstrip_length (rev (lstrip s))) as H1.
  rewrite length_rev in H1.
  pose proof (lstrip_length s). lia.
Qed.

Lemma close_chunk_fits chunks cur :
  Forall fits chunks -> fits cur -> Forall fits (close_chunk chunks cur).
Proof.
  intros Hchunks Hcur. unfold close_chunk.
  destruct (nonempty cur); [|done].
  apply Forall_app. split; [done|]. constructor; [|constructor].
  unfold fits, len in *. pose proof (strip_length cur). lia.
Qed.

Lemma removelast_fits (l : list str) : Forall fits l -> Forall fits (removelast l).
Proof.
  induction 1 as [|x l Hx Hl IH]; simpl; [constructor|].
  destruct l; [constructor|]. by constructor.
Qed.

Lemma last_fits (l : list str) : Forall fits l -> fits (List.last l []).
Proof.
  induction 1 as [|x l Hx Hl IH]; simpl.
  - unfold fits, len. simpl. apply budget_nonneg.
  - by destruct l.
Qed.

Lemma add_split_fits recurse sep chunks cur piece chunks' cur' :
  (forall t r, recurse t = Some r -> Forall fits r) ->
  Forall fits chunks -> fits cur ->
  add_split c recurse sep (chunks, cur) piece = Some (chunks', cur') ->
  Forall fits chunks' /\ fits cur'.
Proof.
  intros Hrec Hchunks Hcur. unfold add_split.
  destruct (Z.leb_spec (len cur + len (if nonempty sep then piece ++ sep else piece))
              (max_chars c)) as [Hle|_].
  { intros [= <- <-]. split; [done|].
    unfold fits, len in *. rewrite length_app. lia. }
  pose proof (close_chunk_fits chunks cur Hchunks Hcur) as Hclosed.
  match goal with |- context [len ?t >? _] => destruct (Z.gtb_spec (len t) (max_chars c)) end.
  - destruct (recurse _) as [sub|] eqn:Hsub; simpl; [|done].
    intros [= <- <-]. apply Hrec in Hsub. split.
    + apply Forall_app. split; [done|]. by apply removelast_fits.
    + by apply last_fits.
  - intros [= <- <-]. done.
Qed.

Lemma for_splits_fits recurse sep splits :
  (forall t r, recurse t = Some r -> Forall fits r) ->
  forall chunks cur chunks' cur',
    Forall fits chunks -> fits cur ->
    for_splits c recurse sep splits (chunks, cur) = Some (chunks', cur') ->
    Forall fits chunks' /\ fits cur'.
Proof.
  intros Hrec.
  induction splits as [|piece rest IH]; intros chunks cur chunks' cur' Hchunks Hcur;
    cbn [for_splits].
  - by intros [= <- <-].
  - destruct (add_split c recurse sep (chunks, cur) piece) as [[chunks1 cur1]|] eqn:Hadd;
      cbn [mbind option_bind]; [|done].
    destruct (add_split_fits _ _ _ _ _ _ _ Hrec Hchunks Hcur Hadd).
    by apply IH.
Qed.

Lemma try_separators_fits self_split by_chars txt seps todo r :
  (forall t s r, self_split t s = Some r -> Forall fits r) ->
  (forall t r, by_chars t = Some r -> Forall fits r) ->
  try_separators c self_split by_chars txt seps todo = Some r ->
  Forall fits r.
Proof.
  intros Hself Hchars.
  induction todo as [|sep todo IH]; simpl; [apply Hchars|].
  destruct (negb (nonempty sep)); [apply Hchars|].
  destruct (contains sep txt); [|apply IH].
  destruct (for_splits c _ sep _ _) as [[chunks cur]|] eqn:Hfor; simpl; [|done].
  intros [= <-].
  apply for_splits_fits in Hfor as [? ?].
  - by apply close_chunk_fits.
  - intros t r. apply Hself.
  - constructor.
  - unfold fits, len. simpl. apply budget_nonneg.
Qed.

Lemma split_text_recursive_fits :
  forall fuel txt seps r,
    split_text_recursive fuel c txt seps = Some r -> Forall fits r.
Proof.
  induction fuel as [|fuel IH]; intros txt seps r; simpl; [done|].
  destruct (Z.leb_spec (len txt) (max_chars c)).
  - intros [= <-]. destruct (nonempty txt); repeat constructor. done.
  - apply try_separators_fits.
    + intros t s r'. apply IH.
    + intros t r'. apply split_by_characters_loop_fits; [lia|constructor].
Qed.

Lemma chunk_text_within_budget fuel txt page_range doc_id cs :
  chunk_text fuel c txt page_range doc_id = Some cs ->
  Forall (fun ch => len (text ch) <= max_chars c) cs.
Proof.
  intros [->|Hsplit]%chunk_text_texts; [constructor|].
  apply split_text_recursive_fits in Hsplit.
  induction cs as [|ch cs IH]; [constructor|].
  inversion Hsplit; subst. constructor; [done|by apply IH].
Qed.
End Budget.

(* ===================================================================== *)
(** * Part III: the insight cache                                         *)
(* ===================================================================== *)

Import Cache.

Ltac run_op :=
  unfold mbind, mret, Op_bind, Op_ret, bind, ret, get_table, set_table, time_now.

(** ** Requests that succeed *)

Lemma request_quiet (w : World) :
  quiet w ->
  exists w', request w = (Returned tt, w')
             /\ table w' = table w /\ clock w' = clock w /\ quiet w'.
Proof.
  unfold quiet, request. destruct w as [tbl now fs]; simpl.
  intros Hq. destruct fs as [|b fs]; [by eexists|].
  inversion Hq; subst. by eexists.
Qed.

Lemma table_query_quiet doc f fwd lim (w : World) :
  quiet w ->
  exists w', table_query doc f fwd lim w
             = (Returned (select (table w) doc f fwd lim), w')
             /\ table w' = table w /\ clock w' = clock w /\ quiet w'.
Proof.
  intros Hq. destruct (request_quiet w Hq) as (w' & Hreq & Htbl & Hclock & Hq').
  exists w'. unfold table_query. run_op. rewrite Hreq, Htbl. done.
Qed.

Lemma table_delete_item_quiet k (w : World) :
  quiet w ->
  exists w', table_delete_item k w = (Returned tt, w')
             /\ table w' = delete k (table w) /\ clock w' = clock w /\ quiet w'.
Proof.
  intros Hq. destruct (request_quiet w Hq) as (w' & Hreq & Htbl & Hclock & Hq').
  eexists. unfold table_delete_item. run_op. rewrite Hreq, Htbl.
  split; [reflexivity|]. done.
Qed.

Lemma delete_each_quiet (items : list Item) :
  forall n w,
    quiet w ->
    exists w', delete_each items n w = (Returned (n + Z.of_nat (length items)), w')
               /\ table w' = fold_left (fun t (it : Item) => delete it.1 t) items (table w)
               /\ clock w' = clock w /\ quiet w'.
Proof.
  induction items as [|[[d ts] a] items IH]; intros n w Hq.
  - exists w. simpl. run_op. replace (n + Z.of_nat 0) with n by lia. done.
  - destruct (table_delete_item_quiet (d, ts) w Hq) as (w1 & Hdel & Htbl & Hclock & Hq1).
    destruct (IH (n + 1) w1 Hq1) as (w2 & Hrest & Htbl2 & Hclock2 & Hq2).
    exists w2. cbn [delete_each]. run_op.
    unfold docId, extractionTimestamp. cbn [fst snd]. rewrite Hdel, Hrest.
    split; [f_equal; f_equal; simpl; lia|].
    rewrite Htbl2, Htbl, Hclock2, Hclock. done.
Qed.

(** ** The table after a run of deletions *)

Lemma lookup_delete_all_other (items : list Item) :
  forall (tbl : gmap Key Attrs) (k : Key),
    k ∉ items.*1 ->
    fold_left (fun t (it : Item) => delete it.1 t) items tbl !! k = tbl !! k.
Proof.
  induction items as [|it items IH]; intros tbl k Hk; simpl; [done|].
  rewrite fmap_cons, not_elem_of_cons in Hk. destruct Hk as [Hne Hk].
  rewrite (IH _ _ Hk). by apply lookup_delete_ne.
Qed.

Lemma lookup_delete_all_deleted (items : list Item) :
  forall (tbl : gmap Key Attrs) (k : Key),
    k ∈ items.*1 ->
    fold_left (fun t (it : Item) => delete it.1 t) items tbl !! k = None.
Proof.
  induction items as [|it items IH]; intros tbl k Hk; simpl.
  - by apply elem_of_nil in Hk.
  - destruct (decide (k ∈ items.*1)) as [Hin|Hout]; [by apply IH|].
    rewrite (lookup_delete_all_other _ _ _ Hout).
    rewrite fmap_cons, elem_of_cons in Hk. destruct Hk as [->|Hk]; [|done].
    apply lookup_delete_eq.
Qed.

(** ** Partitions *)

Lemma elem_of_partition_of (tbl : gmap Key Attrs) (doc : string) (it : Item) :
  it ∈ partition_of tbl doc <-> tbl !! it.1 = Some it.2 /\ it.1.1 = doc.
Proof.
  unfold partition_of. rewrite merge_sort_Permutation.
  destruct it as [k a]. unfold Item.
  by rewrite elem_of_map_to_list, map_lookup_filter_Some.
Qed.

Lemma length_partition_of (w : World) (doc : string) :
  length (partition_of (table w) doc) = entries_of w doc.
Proof.
  unfold partition_of, entries_of. rewrite merge_sort_Permutation.
  apply length_map_to_list.
Qed.

Lemma partition_of_none (tbl : gmap Key Attrs) (doc : string) :
  (forall ts, tbl !! (doc, ts) = None) -> partition_of tbl doc = [].
Proof.
  intros Hnone. unfold partition_of.
  replace (filter (fun kv : Key * Attrs => kv.1.1 = doc) tbl) with (∅ : gmap Key Attrs).
  - by rewrite map_to_list_empty.
  - symmetry. apply map_empty. intros [d ts].
    apply map_lookup_filter_None. destruct (decide (d = doc)) as [->|Hne].
    + left. apply Hnone.
    + right. intros a _. simpl. done.
Qed.

Lemma filter_all {A} (l : list A) : List.filter (fun _ => true) l = l.
Proof. induction l as [|x l IH]; simpl; [done|]. by rewrite IH. Qed.

(** ** Invalidation *)

Lemma invalidate_cache_quiet (w : World) (doc_id : string) :
  quiet w ->
  exists w',
    invalidate_cache doc_id w = (Z.of_nat (entries_of w doc_id), w')
    /\ table w' = fold_left (fun t (it : Item) => delete it.1 t)
                    (partition_of (table w) doc_id) (table w)
    /\ clock w' = clock w /\ quiet w'.
Proof.
  intros Hq.
  destruct (table_query_quiet doc_id (fun _ => true) true None w Hq)
    as (w1 & Hquery & Htbl1 & Hclock1 & Hq1).
  unfold select in Hquery. rewrite filter_all in Hquery.
  destruct (delete_each_quiet (partition_of (table w) doc_id) 0 w1 Hq1)
    as (w2 & Hdel & Htbl2 & Hclock2 & Hq2).
  exists w2. unfold invalidate_cache, try_except. run_op.
  rewrite Hquery, Hdel, length_partition_of, Htbl2, Htbl1, Hclock2, Hclock1.
  done.
Qed.

(** C7.  When the store answers its requests, [invalidate_cache] on a
    document with K stored entries, expired or not, returns K and leaves
    no entry of that document in the table (entries of other documents
    stay as they were); [get_all_insights] for the document then returns
    the empty sequence. *)
Theorem invalidate_cache_removes_all (w : World) (doc_id : string) :
  quiet w ->
  (invalidate_cache doc_id w).1 = Z.of_nat (entries_of w doc_id)
  /\ (forall ts, table (invalidate_cache doc_id w).2 !! (doc_id, ts) = None)
  /\ (forall d ts, d <> doc_id ->
        table (invalidate_cache doc_id w).2 !! (d, ts) = table w !! (d, ts))
  /\ (get_all_insights doc_id (invalidate_cache doc_id w).2).1 = [].
Proof.
  intros Hq.
  destruct (invalidate_cache_quiet w doc_id Hq) as (w' & Hrun & Htbl & Hclock & Hq').
  rewrite Hrun. cbn [fst snd].
  assert (forall ts, table w' !! (doc_id, ts) = None) as Hgone.
  { intros ts. rewrite Htbl.
    destruct (decide ((doc_id, ts) ∈ (partition_of (table w) doc_id).*1)) as [Hin|Hout].
    - by apply lookup_delete_all_deleted.
    - rewrite (lookup_delete_all_other _ _ _ Hout).
      destruct (table w !! (doc_id, ts)) as [a|] eqn:Hlook; [|done].
      exfalso. apply Hout. apply list_elem_of_fmap.
      exists ((doc_id, ts), a). split; [done|].
      by apply elem_of_partition_of. }
  split; [done|]. split; [done|]. split.
  - intros d ts Hne. rewrite Htbl. apply lookup_delete_all_other.
    intros ([k a] & Hk & Hin)%list_elem_of_fmap.
    apply elem_of_partition_of in Hin as [_ Hdoc]. simpl in *. subst k.
    simpl in Hdoc. done.
  - destruct (table_query_quiet doc_id (fun it : Item => expiresAt it.2 >? clock w')
                false None w' Hq') as (w2 & Hquery & _).
    unfold get_all_insights, try_except. run_op. rewrite Hquery.
    cbn [fst]. unfold select. by rewrite (partition_of_none _ _ Hgone).
Qed.

Lemma invalidate_cache_removes_all_witness :
  quiet mixed_world
  /\ (invalidate_cache "d" mixed_world).1 = Z.of_nat (entries_of mixed_world "d")
  /\ (forall ts, table (invalidate_cache "d" mixed_world).2 !! ("d"%string, ts) = None)
  /\ (forall d ts, d <> "d"%string ->
        table (invalidate_cache "d" mixed_world).2 !! (d, ts) = table mixed_world !! (d, ts))
  /\ (get_all_insights "d" (invalidate_cache "d" mixed_world).2).1 = [].
Proof.
  assert (quiet mixed_world) as Hq by (unfold quiet; simpl; repeat constructor).
  split; [exact Hq|].
  exact (invalidate_cache_removes_all mixed_world "d" Hq).
Defined.

(** In that world K is 2: the expired entry counts, the entry of the
    other document does not. *)
Example invalidate_mixed_world :
  entries_of mixed_world "d" = 2%nat
  /\ (invalidate_cache "d" mixed_world).1 = 2
  /\ table (invalidate_cache "d" mixed_world).2 = {[ ("e"%string, 150) := answer "p" 150 ]}.
Proof. repeat split; vm_compute; reflexivity. Qed.

(** ** Requests that fail *)

Lemma request_steps (w : World) (b : bool) (fs : list bool) :
  faults w = b :: fs ->
  request w = (if b then Raised else Returned tt,
               {| table := table w; clock := clock w; faults := fs |}).
Proof. intros Hf. unfold request. rewrite Hf. by destruct b. Qed.

Lemma table_query_fault doc f fwd lim (w : World) :
  head (faults w) = Some true ->
  exists w', table_query doc f fwd lim w = (Raised, w').
Proof.
  destruct (faults w) as [|[] fs] eqn:Hf; simpl; intros [=].
  eexists. unfold table_query. run_op. by rewrite (request_steps w true fs Hf).
Qed.

Lemma delete_each_fault (items : list Item) :
  forall n w i,
    faults w !! i = Some true -> (i < length items)%nat ->
    exists w', delete_each items n w = (Raised, w').
Proof.
  induction items as [|it items IH]; intros n w i Hi Hlen; simpl in Hlen; [lia|].
  destruct (faults w) as [|b fs] eqn:Hf; [done|].
  cbn [delete_each]. unfold table_delete_item. run_op.
  rewrite (request_steps w b fs Hf). destruct b.
  - by eexists.
  - destruct i as [|i]; [done|]. simpl in Hi.
    apply (IH (n + 1) _ i); [done|lia].
Qed.

(** C8.  Every operation of the cache manager is a total function of the
    world: none raises.  When the store fails during an operation the
    result is the fallback value: [None] for [check_cache], [false] for
    [store_in_cache] (and the table is as it was), the empty sequence for
    [get_all_insights], and [0] for [invalidate_cache], whichever of its
    requests fails: the query (request 0) or the deletion of one of the
    K entries (requests 1 to K). *)
Theorem cache_operations_fall_back :
  (forall w doc_id prompt_,
     head (faults w) = Some true -> (check_cache doc_id prompt_ w).1 = None)
  /\ (forall w doc_id prompt_ insights_ model_id chunk_count,
        head (faults w) = Some true ->
        (store_in_cache doc_id prompt_ insights_ model_id chunk_count w).1 = false
        /\ table (store_in_cache doc_id prompt_ insights_ model_id chunk_count w).2
           = table w)
  /\ (forall w doc_id,
        head (faults w) = Some true -> (get_all_insights doc_id w).1 = [])
  /\ (forall w doc_id i,
        faults w !! i = Some true -> (i <= entries_of w doc_id)%nat ->
        (invalidate_cache doc_id w).1 = 0).
Proof.
  split; [|split; [|split]].
  - intros w doc_id prompt_ Hf.
    unfold check_cache, try_except. run_op.
    match goal with |- context [table_query ?d ?f ?b ?l w] =>
      destruct (table_query_fault d f b l w Hf) as [w' ->] end.
    done.
  - intros w doc_id prompt_ insights_ model_id chunk_count Hf.
    destruct (faults w) as [|[] fs] eqn:Hfs; simpl in Hf; try discriminate Hf.
    unfold store_in_cache, try_except, table_put_item. run_op.
    by rewrite (request_steps w true fs Hfs).
  - intros w doc_id Hf.
    unfold get_all_insights, try_except. run_op.
    match goal with |- context [table_query ?d ?f ?b ?l w] =>
      destruct (table_query_fault d f b l w Hf) as [w' ->] end.
    done.
  - intros w doc_id i Hi Hle.
    unfold invalidate_cache, try_except. run_op.
    destruct (faults w) as [|b fs] eqn:Hfs; [done|].
    unfold table_query. run_op. rewrite (request_steps w b fs Hfs).
    destruct b; [done|].
    destruct i as [|i]; [done|]. simpl in Hi. cbn [table].
    match goal with |- context [delete_each ?items 0 ?w1] =>
      destruct (delete_each_fault items 0 w1 i) as [w' ->] end; [done| |done].
    unfold select. rewrite filter_all, length_partition_of. lia.
Qed.

Lemma cache_operations_fall_back_witness :
  (check_cache "d" "q" down_world).1 = None
  /\ (store_in_cache "d" "r" [] "model" 3 down_world).1 = false
  /\ (get_all_insights "d" down_world).1 = []
  /\ (invalidate_cache "d" failing_world).1 = 0.
Proof.
  destruct cache_operations_fall_back as (Hcheck & Hstore & Hall & Hinv).
  split; [|split; [|split]].
  - apply Hcheck. reflexivity.
  - apply Hstore. reflexivity.
  - apply Hall. reflexivity.
  - apply (Hinv failing_world "d"%string 2%nat); [reflexivity|vm_compute; lia].
Defined.

(** In [failing_world] the first deletion had gone through when the
    second failed: the oldest entry is gone, nothing is rolled back, and
    the count reported is 0. *)
Example invalidate_partial :
  (invalidate_cache "d" failing_world).1 = 0
  /\ table (invalidate_cache "d" failing_world).2
     = {[ ("d"%string, 200) := answer "q" 200 ]}.
Proof. split; vm_compute; reflexivity. Qed.

(** ** Storing *)

(** What one call does to the table: nothing when the request fails,
    one insertion under the key [(doc_id, now)] otherwise. *)
Lemma store_in_cache_table (w : World) doc_id prompt_ insights_ model_id chunk_count :
  let r := store_in_cache doc_id prompt_ insights_ model_id chunk_count w in
  (head (faults w) = Some true /\ r.1 = false /\ table r.2 = table w)
  \/ (head (faults w) <> Some true /\ r.1 = true
      /\ table r.2
         = <[(doc_id, clock w) :=
               {| prompt := prompt_; insights := insights_; modelId := model_id;
                  chunkCount := chunk_count; expiresAt := clock w + 86400 |}]>
             (table w)).
Proof.
  unfold store_in_cache, try_except, table_put_item. run_op. unfold request.
  destruct (faults w) as [|[] fs]; simpl.
  - right. done.
  - left. done.
  - right. done.
Qed.

Lemma run_store_call_frame (w : World) (sc : StoreCall) (k : Key) :
  (call_doc sc, call_time sc) <> k ->
  table (run_store_call w sc) !! k = table w !! k.
Proof.
  intros Hne. unfold run_store_call.
  destruct (store_in_cache_table (set_clock (call_time sc) w) (call_doc sc)
              (call_prompt sc) (call_insights sc) (call_model sc) (call_chunks sc))
    as [(_ & _ & ->)|(_ & _ & ->)]; [done|].
  by apply lookup_insert_ne.
Qed.

(** C6, counterexample.  Two calls for the same document within the same
    second, with different prompts: both report success, and the entry
    the first one stored is replaced by the second. *)
Lemma store_in_cache_same_second_overwrites :
  let first := store_in_cache "d" "p" [] "model" 3 (empty_world 100) in
  let second := store_in_cache "d" "q" [] "model" 5 first.2 in
  first.1 = true /\ second.1 = true
  /\ (prompt <$> table first.2 !! ("d"%string, 100)) = Some "p"%string
  /\ table second.2 !! ("d"%string, 100) <> table first.2 !! ("d"%string, 100)
  /\ size (table second.2) = 1%nat.
Proof.
  repeat split; try (vm_compute; reflexivity).
  vm_compute. discriminate.
Qed.

(** C6, as amended.  A call that the store accepts reports success and
    writes one entry under the key [(doc_id, now)], with
    [expiresAt = now + 24 * 3600]; every entry stored under another key
    is unchanged.  For every sequence of calls, an entry whose key is not
    the [(doc_id, timestamp)] of one of the calls is unchanged. *)
Theorem store_in_cache_frame :
  (forall w doc_id prompt_ insights_ model_id chunk_count,
     head (faults w) <> Some true ->
     let r := store_in_cache doc_id prompt_ insights_ model_id chunk_count w in
     r.1 = true
     /\ table r.2 !! (doc_id, clock w)
        = Some {| prompt := prompt_; insights := insights_; modelId := model_id;
                  chunkCount := chunk_count; expiresAt := clock w + 24 * 3600 |}
     /\ (forall k, k <> (doc_id, clock w) -> table r.2 !! k = table w !! k))
  /\ (forall calls w k,
        Forall (fun sc => (call_doc sc, call_time sc) <> k) calls ->
        table (run_store_calls calls w) !! k = table w !! k).
Proof.
  split.
  - intros w doc_id prompt_ insights_ model_id chunk_count Hok r.
    destruct (store_in_cache_table w doc_id prompt_ insights_ model_id chunk_count)
      as [(Hf & _)|(_ & Hr & Htbl)]; [done|].
    fold r in Hr, Htbl. rewrite Htbl. split; [done|]. split.
    + by rewrite lookup_insert_eq.
    + intros k Hk. by apply lookup_insert_ne.
  - induction calls as [|sc calls IH]; intros w k Hcalls; [done|].
    inversion Hcalls as [|? ? Hsc Hrest]; subst.
    unfold run_store_calls in *. simpl.
    rewrite (IH _ _ Hrest). by apply run_store_call_frame.
Qed.

Lemma store_in_cache_frame_witness :
  (let r := store_in_cache "d" "r" [] "model" 7 two_prompts_world in
   r.1 = true
   /\ table r.2 !! ("d"%string, 300)
      = Some {| prompt := "r"; insights := []; modelId := "model";
                chunkCount := 7; expiresAt := 300 + 24 * 3600 |}
   /\ (forall k, k <> ("d"%string, 300) -> table r.2 !! k = table two_prompts_world !! k))
  /\ table (run_store_calls
              [ {| call_time := 300; call_doc := "d"; call_prompt := "r";
                   call_insights := []; call_model := "model"; call_chunks := 7 |};
                {| call_time := 301; call_doc := "d"; call_prompt := "p";
                   call_insights := []; call_model := "model"; call_chunks := 2 |} ]
              two_prompts_world) !! ("d"%string, 100)
     = table two_prompts_world !! ("d"%string, 100).
Proof.
  destruct store_in_cache_frame as [Hone Hseq].
  split.
  - apply (Hone two_prompts_world). simpl. discriminate.
  - apply Hseq. repeat constructor; simpl; intros [= ?]; lia.
Defined.

(** ** Looking up *)

(** What [check_cache] returns when the store answers: the newest entry
    of the document, provided that entry has the prompt asked for and
    has not expired; nothing otherwise. *)
Lemma check_cache_quiet (w : World) (doc_id prompt_ : string) :
  quiet w ->
  (check_cache doc_id prompt_ w).1
  = head (List.filter
            (fun it : Item => bool_decide (prompt it.2 = prompt_)
                              && (expiresAt it.2 >? clock w))
            (take 1 (rev (partition_of (table w) doc_id)))).
Proof.
  intros Hq.
  destruct (table_query_quiet doc_id
              (fun it : Item => bool_decide (prompt it.2 = prompt_)
                                && (expiresAt it.2 >? clock w))
              false (Some 1%nat) w Hq) as (w' & Hquery & _).
  unfold check_cache, try_except. run_op. rewrite Hquery.
  unfold select. by destruct (List.filter _ _).
Qed.

(** C3.  Document "d" has two live entries, an older one for prompt "p"
    and a newer one for prompt "q".  Asked for "p", the lookup the
    specification describes finds the older entry; [check_cache] lets the
    store evaluate one item only (the newest of the document), the filter
    rejects it, and the answer is not-found. *)
Theorem check_cache_misses_older_match :
  lookup_as_specified two_prompts_world "d" "p" = Some (("d"%string, 100), answer "p" 100)
  /\ (check_cache "d" "p" two_prompts_world).1 = None.
Proof. split; vm_compute; reflexivity. Qed.

(** With two live entries for the same document and prompt the newer one
    is returned. *)
Example check_cache_two_same_prompt :
  (check_cache "d" "p"
     {| table := <[("d"%string, 200) := answer "p" 200]> (table two_prompts_world);
        clock := 300; faults := [] |}).1
  = Some (("d"%string, 200), answer "p" 200).
Proof. vm_compute. reflexivity. Qed.

(* ===================================================================== *)
(** * Part IV: more on the text chunker                                   *)
(* ===================================================================== *)

(** ** Token budget *)

(** X1.  Under a valid configuration every chunk stays within the character
    budget, and its estimated token count within [chunk_size]. *)
Theorem chunks_fit_token_budget (c : TextChunker) fuel txt page_range doc_id cs :
  0 <= chunk_overlap c < chunk_size c ->
  chunk_text fuel c txt page_range doc_id = Some cs ->
  Forall (fun ch => len (text ch) <= max_chars c
                    /\ estimate_token_count (text ch) <= chunk_size c) cs.
Proof.
  intros Hvalid Hrun.
  pose proof (chunk_text_within_budget c Hvalid _ _ _ _ _ Hrun) as Hfit.
  eapply Forall_impl; [exact Hfit|]. intros ch Hch. split; [done|].
  unfold estimate_token_count, max_chars, chars_per_token in *.
  apply Z.div_le_upper_bound; lia.
Qed.

Lemma chunks_fit_token_budget_witness :
  Forall (fun ch => len (text ch) <= max_chars tiny_chunker
                    /\ estimate_token_count (text ch) <= chunk_size tiny_chunker)
    [ make_chunk (lit "doc") (lit "1-10") 0 (lit "abcd");
      make_chunk (lit "doc") (lit "1-10") 1 (lit "efgh");
      make_chunk (lit "doc") (lit "1-10") 2 (lit "ij") ].
Proof.
  apply (chunks_fit_token_budget tiny_chunker 5 (lit "abcdefghij") (lit "1-10") (lit "doc")).
  - simpl. lia.
  - vm_compute. reflexivity.
Defined.

(** ** Metadata *)

Lemma fold_push_metadata doc_id page_range (l : list (Z * str)) (acc : list Chunk) :
  Forall (fun ch => Chunker.docId (metadata ch) = doc_id /\ pageRange (metadata ch) = page_range) acc ->
  Forall (fun ch => Chunker.docId (metadata ch) = doc_id /\ pageRange (metadata ch) = page_range)
    (fold_left (fun chunk_dicts '(idx, chunk_text) =>
                  chunk_dicts ++ [make_chunk doc_id page_range idx chunk_text]) l acc).
Proof.
  revert acc. induction l as [|[i t] l IH]; intros acc Hacc; simpl; [done|].
  apply IH. apply Forall_app. split; [done|]. by repeat constructor.
Qed.

(** X2.  Every chunk carries the document identifier and the page range the
    call was given. *)
Theorem chunk_text_metadata fuel c txt page_range doc_id cs :
  chunk_text fuel c txt page_range doc_id = Some cs ->
  Forall (fun ch => Chunker.docId (metadata ch) = doc_id /\ pageRange (metadata ch) = page_range) cs.
Proof.
  unfold chunk_text. case_match; [intros [= <-]; constructor|].
  destruct (recursive_split fuel c txt) as [chunks|]; simpl; [|done].
  intros [= <-]. apply fold_push_metadata. constructor.
Qed.

Lemma chunk_text_metadata_witness :
  Forall (fun ch => Chunker.docId (metadata ch) = lit "doc"
                    /\ pageRange (metadata ch) = lit "1-10")
    [ make_chunk (lit "doc") (lit "1-10") 0 (lit "abcd");
      make_chunk (lit "doc") (lit "1-10") 1 (lit "efgh");
      make_chunk (lit "doc") (lit "1-10") 2 (lit "ij") ].
Proof.
  apply (chunk_text_metadata 5 tiny_chunker (lit "abcdefghij") (lit "1-10") (lit "doc")).
  vm_compute. reflexivity.
Defined.

(** ** Texts within the budget *)

(** X3.  A text that is not blank and fits the budget comes back as one
    chunk, with index 0, and unchanged: leading and trailing whitespace
    are kept. *)
Theorem chunk_text_short_text fuel c txt page_range doc_id :
  len txt <= max_chars c ->
  strip txt <> [] ->
  chunk_text (S fuel) c txt page_range doc_id = Some [make_chunk doc_id page_range 0 txt].
Proof.
  intros Hlen Hstrip. unfold chunk_text.
  destruct txt as [|ch txt]; [done|].
  destruct (strip (ch :: txt)) eqn:Hs; [done|]. cbn [nonempty negb orb].
  unfold recursive_split. cbn [split_text_recursive].
  apply Z.leb_le in Hlen. rewrite Hlen. reflexivity.
Qed.

Lemma chunk_text_short_text_witness :
  chunk_text 1 tiny_chunker (lit " ab ") (lit "1-10") (lit "doc")
  = Some [make_chunk (lit "doc") (lit "1-10") 0 (lit " ab ")].
Proof.
  apply chunk_text_short_text.
  - vm_compute. discriminate.
  - vm_compute. discriminate.
Defined.

(** ** Texts without whitespace *)

Lemma lstrip_no_whitespace (s : str) :
  Forall (fun ch => isspace ch = false) s -> lstrip s = s.
Proof. intros [|ch s' Hch _]; simpl; [done|]. by rewrite Hch. Qed.

Lemma strip_no_whitespace (s : str) :
  Forall (fun ch => isspace ch = false) s -> strip s = s.
Proof.
  intros Hfree. unfold strip, rstrip. rewrite (lstrip_no_whitespace s Hfree).
  rewrite lstrip_no_whitespace; [apply rev_involutive|].
  rewrite Forall_forall in *. intros ch Hin. apply Hfree.
  apply list_elem_of_In. apply list_elem_of_In in Hin. by apply in_rev.
Qed.


Lemma startswith_In (p s : str) :
  startswith p s = true -> forall ch, In ch p -> In ch s.
Proof.
  revert s. induction p as [|a p IH]; intros s Hp ch Hin; [done|].
  destruct s as [|b s]; [done|]. simpl in Hp.
  apply andb_prop in Hp as [Hab Hp]. apply Ascii.eqb_eq in Hab. subst b.
  destruct Hin as [->|Hin]; [by left|]. right. exact (IH s Hp ch Hin).
Qed.

Lemma contains_In (p s : str) :
  contains p s = true -> forall ch, In ch p -> In ch s.
Proof.
  induction s as [|b s IH]; simpl; intros Hc ch Hin.
  - rewrite orb_false_r in Hc. exact (startswith_In p [] Hc ch Hin).
  - apply orb_prop in Hc as [Hc|Hc].
    + exact (startswith_In p (b :: s) Hc ch Hin).
    + right. by apply IH.
Qed.

Lemma separators_have_whitespace (sep : str) :
  In sep separators -> sep = [] \/ exists ch, In ch sep /\ isspace ch = true.
Proof.
  unfold separators. simpl.
  intros [<-|[<-|[<-|[<-|[<-|[<-|[<-|[<-|[<-|[]]]]]]]]]];
    try (by left); right.
  all: first [ by exists " "%char; split; [simpl; tauto|reflexivity]
             | by exists "010"%char; split; [simpl; tauto|reflexivity] ].
Qed.

Lemma try_separators_none c f g (txt : str) seps todo :
  (forall sep, In sep todo -> sep = [] \/ contains sep txt = false) ->
  try_separators c f g txt seps todo = g txt.
Proof.
  induction todo as [|sep todo IH]; intros Htodo; simpl; [done|].
  destruct (Htodo sep (or_introl eq_refl)) as [->|Hno]; [done|].
  destruct sep; [done|]. cbn [nonempty negb]. rewrite Hno.
  apply IH. intros s Hs. apply Htodo. by right.
Qed.

Lemma recursive_split_no_whitespace c (txt : str) fuel :
  Forall (fun ch => isspace ch = false) txt ->
  recursive_split (S fuel) c txt
  = if len txt <=? max_chars c
    then Some (if nonempty txt then [txt] else [])
    else split_by_characters fuel c txt.
Proof.
  intros Hfree. unfold recursive_split. cbn [split_text_recursive].
  destruct (len txt <=? max_chars c); [done|].
  apply try_separators_none. intros sep Hsep.
  destruct (separators_have_whitespace sep Hsep) as [->|(ch & Hin & Hsp)]; [by left|].
  right. destruct (contains sep txt) eqn:Hc; [|done].
  pose proof (contains_In sep txt Hc ch Hin) as Hin'.
  rewrite Forall_forall in Hfree. apply list_elem_of_In in Hin'.
  rewrite (Hfree ch Hin') in Hsp. done.
Qed.

Lemma split_by_characters_loop_nonempty c (txt : str) :
  0 < max_chars c ->
  (forall start, 0 <= start -> 0 <= next_start c start) ->
  forall fuel start chunks r,
    0 <= start -> Forall (fun ch : str => ch <> []) chunks ->
    split_by_characters_loop fuel c txt start chunks = Some r ->
    Forall (fun ch : str => ch <> []) r.
Proof.
  intros Hmax Hnext.
  induction fuel as [|fuel IH]; intros start chunks r Hstart Hchunks; simpl.
  - destruct (start <? len txt); [done|]. by intros [= <-].
  - destruct (Z.ltb_spec start (len txt)); [|by intros [= <-]].
    apply IH; [by apply Hnext|].
    apply Forall_app. split; [done|]. constructor; [|constructor].
    intros Hnil. apply (f_equal length) in Hnil. revert Hnil.
    unfold py_slice, clamp_index, len in *. rewrite length_take, length_drop.
    destruct (Z.ltb_spec start 0); [lia|].
    destruct (Z.ltb_spec (start + max_chars c) 0); simpl; lia.
Qed.

(** X4.  For a text without whitespace (one long token, an encoded blob) and
    a valid configuration, the chunks of [chunk_text] give the text
    back exactly once the first [overlap_chars] characters of every chunk
    but the first are dropped, and no chunk is empty. *)
Theorem chunk_text_no_whitespace (c : TextChunker) fuel txt page_range doc_id cs :
  0 <= chunk_overlap c < chunk_size c ->
  Forall (fun ch => isspace ch = false) txt ->
  chunk_text fuel c txt page_range doc_id = Some cs ->
  reassemble (overlap_chars c) (map text cs) = txt
  /\ Forall (fun t : str => t <> []) (map text cs).
Proof.
  intros Hvalid Hfree. unfold chunk_text.
  rewrite (strip_no_whitespace txt Hfree).
  destruct txt as [|ch txt]; [intros [= <-]; split; [done|constructor]|].
  cbn [nonempty negb orb].
  destruct fuel as [|fuel]; [done|].
  rewrite (recursive_split_no_whitespace c _ fuel Hfree).
  destruct (len (ch :: txt) <=? max_chars c); cbn [nonempty].
  - cbn [mbind option_bind]. intros [= <-]. simpl.
    rewrite app_nil_r. split; [done|by repeat constructor].
  - destruct (split_by_characters fuel c (ch :: txt)) as [chunks|] eqn:Hsplit;
      cbn [mbind option_bind]; [|done].
    intros [= <-]. rewrite (fold_push_texts doc_id page_range 0 chunks). split.
    + by apply (split_by_characters_reassembles c Hvalid fuel).
    + apply (split_by_characters_loop_nonempty c (ch :: txt))
        with (fuel := fuel) (start := 0) (chunks := []);
        [unfold max_chars, chars_per_token; lia| |lia|constructor|exact Hsplit].
      intros start Hs. destruct (valid_step c Hvalid start). lia.
Qed.

Lemma chunk_text_no_whitespace_witness :
  reassemble (overlap_chars {| chunk_size := 2; chunk_overlap := 1 |})
    [lit "abcdefgh"; lit "efghijkl"; lit "ijklm"; lit "m"]
  = lit "abcdefghijklm"
  /\ Forall (fun t : str => t <> []) [lit "abcdefgh"; lit "efghijkl"; lit "ijklm"; lit "m"].
Proof.
  apply (chunk_text_no_whitespace {| chunk_size := 2; chunk_overlap := 1 |} 6
           (lit "abcdefghijklm") (lit "1-10") (lit "doc")
           [ make_chunk (lit "doc") (lit "1-10") 0 (lit "abcdefgh");
             make_chunk (lit "doc") (lit "1-10") 1 (lit "efghijkl");
             make_chunk (lit "doc") (lit "1-10") 2 (lit "ijklm");
             make_chunk (lit "doc") (lit "1-10") 3 (lit "m") ]).
  - simpl. lia.
  - repeat constructor.
  - vm_compute. reflexivity.
Defined.

(** X5.  With an overlap that is not below the size, a text without
    whitespace that is longer than the budget is never chunked: whatever
    the fuel, [chunk_text] does not return. *)
Theorem chunk_text_never_returns (c : TextChunker) fuel txt page_range doc_id :
  chunk_size c <= chunk_overlap c ->
  Forall (fun ch => isspace ch = false) txt ->
  txt <> [] -> max_chars c < len txt ->
  chunk_text fuel c txt page_range doc_id = None.
Proof.
  intros Hconf Hfree Hne Hlong. unfold chunk_text.
  rewrite (strip_no_whitespace txt Hfree).
  destruct txt as [|ch txt]; [done|]. cbn [nonempty negb orb].
  destruct fuel as [|fuel]; [done|].
  rewrite (recursive_split_no_whitespace c _ fuel Hfree).
  destruct (Z.leb_spec (len (ch :: txt)) (max_chars c)); [lia|].
  by rewrite (split_by_characters_diverges c (ch :: txt) fuel Hconf).
Qed.

Lemma chunk_text_never_returns_witness :
  chunk_text 1000 {| chunk_size := 2; chunk_overlap := 5 |}
    (lit "abcdefghijklm") (lit "1-10") (lit "doc") = None.
Proof.
  apply chunk_text_never_returns.
  - simpl. lia.
  - repeat constructor.
  - discriminate.
  - vm_compute. reflexivity.
Defined.

(** ** The character loop *)

(** X6.  Under a valid configuration the slices of [_split_by_characters]
    give the text back: the first one, followed by the others without
    their first [overlap_chars] characters. *)
Theorem character_fallback_round_trip (c : TextChunker) fuel (txt : str) r :
  0 <= chunk_overlap c < chunk_size c ->
  split_by_characters fuel c txt = Some r ->
  reassemble (overlap_chars c) r = txt.
Proof. intros Hvalid. by apply split_by_characters_reassembles. Qed.

Lemma character_fallback_round_trip_witness :
  reassemble (overlap_chars {| chunk_size := 2; chunk_overlap := 1 |})
    [lit "ab cdefg"; lit "defgh ij"; lit "h ij"]
  = lit "ab cdefgh ij".
Proof.
  apply (character_fallback_round_trip {| chunk_size := 2; chunk_overlap := 1 |} 5
           (lit "ab cdefgh ij")).
  - simpl. lia.
  - vm_compute. reflexivity.
Defined.


Section CharacterCount.
Variable c : TextChunker.
Hypothesis Hvalid : 0 <= chunk_overlap c < chunk_size c.

Let step : Z := max_chars c - overlap_chars c.

Lemma split_by_characters_loop_count (txt : str) :
  forall fuel start acc r,
    split_by_characters_loop fuel c txt start acc = Some r ->
    Z.of_nat (length r)
    = Z.of_nat (length acc)
      + (if start <? len txt then (len txt - start + step - 1) / step else 0).
Proof.
  assert (0 < step) as Hstep.
  { pose proof (overlap_bounds c Hvalid). subst step. lia. }
  induction fuel as [|fuel IH]; intros start acc r; simpl.
  - destruct (start <? len txt); [done|]. intros [= <-]. lia.
  - destruct (Z.ltb_spec start (len txt)) as [Hlt|Hge]; [|intros [= <-]; lia].
    intros Hrun. apply IH in Hrun. rewrite Hrun, length_app. simpl.
    destruct (valid_step c Hvalid start) as [Hnext _]. fold step in Hnext.
    replace (next_start c start) with (start + step) by lia.
    replace (len txt - start + step - 1) with ((len txt - start - 1) + 1 * step) by lia.
    rewrite Z.div_add by lia.
    destruct (Z.ltb_spec (start + step) (len txt)).
    + replace (len txt - (start + step) + step - 1) with (len txt - start - 1) by lia. lia.
    + rewrite Z.div_small by lia. lia.
Qed.

Lemma split_by_characters_count fuel (txt : str) r :
  split_by_characters fuel c txt = Some r ->
  Z.of_nat (length r) = (len txt + step - 1) / step.
Proof.
  assert (0 < step) as Hstep.
  { pose proof (overlap_bounds c Hvalid). subst step. lia. }
  intros Hrun. apply split_by_characters_loop_count in Hrun. rewrite Hrun.
  change (Z.of_nat (length (@nil str))) with 0.
  destruct (Z.ltb_spec 0 (len txt)).
  - replace (len txt - 0 + step - 1) with (len txt + step - 1) by lia. lia.
  - assert (len txt = 0) as -> by (unfold len in *; lia).
    rewrite Z.div_small; lia.
Qed.
End CharacterCount.

(** X7.  The number of slices is the length of the text divided by the step
    [max_chars - overlap_chars], rounded up. *)
Theorem character_fallback_count (c : TextChunker) fuel (txt : str) r :
  0 <= chunk_overlap c < chunk_size c ->
  split_by_characters fuel c txt = Some r ->
  Z.of_nat (length r)
  = (len txt + (max_chars c - overlap_chars c) - 1) / (max_chars c - overlap_chars c).
Proof. intros Hvalid. by apply split_by_characters_count. Qed.

Lemma character_fallback_count_witness :
  Z.of_nat (length [lit "abcdefgh"; lit "efghijkl"; lit "ijklm"; lit "m"])
  = (len (lit "abcdefghijklm") + (8 - 4) - 1) / (8 - 4).
Proof.
  apply (character_fallback_count {| chunk_size := 2; chunk_overlap := 1 |} 5
           (lit "abcdefghijklm")).
  - simpl. lia.
  - vm_compute. reflexivity.
Defined.

(* ===================================================================== *)
(** * Part V: more on the insight cache                                   *)
(* ===================================================================== *)

(** ** Order of a partition *)

Lemma older_transitive : Transitive older.
Proof. intros a b c. unfold older. lia. Qed.

Lemma older_total : Total older.
Proof. intros a b. unfold older. lia. Qed.

Lemma partition_of_sorted (tbl : gmap Key Attrs) (doc : string) :
  StronglySorted older (partition_of tbl doc).
Proof.
  unfold partition_of.
  apply (@StronglySorted_merge_sort _ older _ older_transitive older_total).
Qed.

(** The item a descending query evaluates first is the newest of the
    partition. *)
Lemma partition_of_newest (tbl : gmap Key Attrs) (doc : string) (it : Item) :
  head (rev (partition_of tbl doc)) = Some it ->
  it ∈ partition_of tbl doc
  /\ forall it', it' ∈ partition_of tbl doc -> older it' it.
Proof.
  pose proof (partition_of_sorted tbl doc) as Hsorted.
  destruct (rev (partition_of tbl doc)) as [|x r] eqn:Hrev; [done|].
  intros [= ->].
  assert (partition_of tbl doc = rev r ++ [it]) as Hpart.
  { rewrite <- (rev_involutive (partition_of tbl doc)), Hrev. done. }
  rewrite Hpart in *. split; [set_solver|].
  intros it' [Hin|Hin]%elem_of_app.
  - apply (StronglySorted_app_1_elem_of older (rev r) [it]); [done|done|set_solver].
  - apply list_elem_of_singleton in Hin as ->. unfold older. lia.
Qed.

Lemma partition_of_nonempty (tbl : gmap Key Attrs) (doc : string) ts a :
  tbl !! (doc, ts) = Some a ->
  exists it, head (rev (partition_of tbl doc)) = Some it.
Proof.
  intros Hlook.
  assert (((doc, ts), a) ∈ partition_of tbl doc) as Hin
    by (by apply elem_of_partition_of).
  destruct (rev (partition_of tbl doc)) as [|x r] eqn:Hrev; [|by eexists].
  apply (f_equal (@rev Item)) in Hrev. rewrite rev_involutive in Hrev.
  rewrite Hrev in Hin. by apply elem_of_nil in Hin.
Qed.

(** ** What a lookup returns *)

Lemma check_cache_result (w : World) (doc_id prompt_ : string) :
  (check_cache doc_id prompt_ w).1
  = match head (faults w) with
    | Some true => None
    | _ => head (List.filter
                   (fun it : Item => bool_decide (prompt it.2 = prompt_)
                                     && (expiresAt it.2 >? clock w))
                   (take 1 (rev (partition_of (table w) doc_id))))
    end.
Proof.
  unfold check_cache, try_except, table_query. run_op.
  destruct (faults w) as [|b fs] eqn:Hf.
  - unfold request. rewrite Hf. simpl. unfold select. by destruct (List.filter _ _).
  - rewrite (request_steps w b fs Hf). destruct b; simpl; [done|].
    unfold select. by destruct (List.filter _ _).
Qed.

(** X8.  Whatever [check_cache] returns is stored under the document asked
    for, has the prompt asked for, has not expired, and is the newest
    entry of the document. *)
Theorem check_cache_sound (w : World) (doc_id prompt_ : string) (it : Item) :
  (check_cache doc_id prompt_ w).1 = Some it ->
  table w !! it.1 = Some it.2
  /\ docId it = doc_id
  /\ prompt it.2 = prompt_
  /\ clock w < expiresAt it.2
  /\ (forall ts a, table w !! (doc_id, ts) = Some a -> ts <= extractionTimestamp it).
Proof.
  rewrite check_cache_result.
  intros Hres.
  assert (head (List.filter
                  (fun it : Item => bool_decide (prompt it.2 = prompt_)
                                    && (expiresAt it.2 >? clock w))
                  (take 1 (rev (partition_of (table w) doc_id)))) = Some it) as Hhead.
  { destruct (head (faults w)) as [[]|]; done. }
  clear Hres.
  destruct (rev (partition_of (table w) doc_id)) as [|x r] eqn:Hrev; [done|].
  simpl in Hhead.
  destruct (bool_decide (prompt x.2 = prompt_) && (expiresAt x.2 >? clock w)) eqn:Hf;
    [|done].
  simpl in Hhead. injection Hhead as ->.
  apply andb_prop in Hf as [Hp He]. apply bool_decide_eq_true in Hp.
  apply Z.gtb_lt in He.
  destruct (partition_of_newest (table w) doc_id it) as [Hin Hmax];
    [by rewrite Hrev|].
  apply elem_of_partition_of in Hin as [Hlook Hdoc].
  repeat split; try done.
  intros ts a Hts.
  apply (Hmax ((doc_id, ts), a)). by apply elem_of_partition_of.
Qed.

Lemma check_cache_sound_witness :
  let it := (("d"%string, 200), answer "q" 200) in
  table two_prompts_world !! it.1 = Some it.2
  /\ docId it = "d"%string
  /\ prompt it.2 = "q"%string
  /\ clock two_prompts_world < expiresAt it.2
  /\ (forall ts a, table two_prompts_world !! ("d"%string, ts) = Some a ->
        ts <= extractionTimestamp it).
Proof.
  apply (check_cache_sound two_prompts_world "d" "q"). vm_compute. reflexivity.
Defined.

(** ** Storing, then looking up *)

Lemma store_in_cache_faults (w : World) doc_id prompt_ insights_ model_id chunk_count :
  faults (store_in_cache doc_id prompt_ insights_ model_id chunk_count w).2
  = drop 1 (faults w).
Proof.
  unfold store_in_cache, try_except, table_put_item. run_op. unfold request.
  destruct w as [tbl now fs]. simpl. by destruct fs as [|[] fs].
Qed.


(** X9.  An entry stored at time [t] for a document that has no later entry
    is what [check_cache] returns for the same document and prompt as
    long as the clock is below [t + 86400]; from then on the answer is
    not-found. *)
Theorem store_then_check (w : World) doc_id prompt_ insights_ model_id chunk_count (later : Z) :
  quiet w ->
  (forall ts a, table w !! (doc_id, ts) = Some a -> ts <= clock w) ->
  let stored := store_in_cache doc_id prompt_ insights_ model_id chunk_count w in
  let entry : Item :=
    ((doc_id, clock w),
     {| prompt := prompt_; insights := insights_; modelId := model_id;
        chunkCount := chunk_count; expiresAt := clock w + 86400 |}) in
  stored.1 = true
  /\ (check_cache doc_id prompt_ (set_clock later stored.2)).1
     = if later <? clock w + 86400 then Some entry else None.
Proof.
  intros Hq Hpast stored entry.
  destruct (store_in_cache_table w doc_id prompt_ insights_ model_id chunk_count)
    as [(Hf & _)|(_ & Hr & Htbl)].
  { exfalso. unfold quiet in Hq. destruct (faults w) as [|b fs]; [done|].
    inversion Hq; subst. done. }
  fold stored in Hr, Htbl. split; [done|].
  assert (head (faults stored.2) <> Some true) as Hok.
  { subst stored. rewrite store_in_cache_faults.
    unfold quiet in Hq. destruct (faults w) as [|b [|b' fs]]; simpl; try done.
    inversion Hq as [|? ? _ Hfs]; subst. inversion Hfs; subst. done. }
  rewrite check_cache_result.
  change (faults (set_clock later stored.2)) with (faults stored.2).
  change (table (set_clock later stored.2)) with (table stored.2).
  change (clock (set_clock later stored.2)) with later.
  rewrite Htbl.
  set (tbl := <[_ := _]> (table w)).
  assert (tbl !! (doc_id, clock w) = Some entry.2) as Hnew by apply lookup_insert_eq.
  destruct (partition_of_nonempty tbl doc_id _ _ Hnew) as [it Hit].
  destruct (partition_of_newest tbl doc_id it Hit) as [Hin Hmax].
  assert (it = entry) as ->.
  { apply elem_of_partition_of in Hin as [Hlook Hdoc].
    pose proof (Hmax entry) as Hle. unfold older in Hle.
    assert (clock w <= extractionTimestamp it) as Hge.
    { apply Hle. by apply elem_of_partition_of. }
    destruct it as [[d ts] a]. cbn [fst snd] in Hlook, Hdoc. subst d.
    unfold extractionTimestamp in Hge. cbn [fst snd] in Hge.
    destruct (decide (ts = clock w)) as [Heq|Hne].
    - subst ts.
      assert (Some a = Some entry.2) as [= ->] by (rewrite <- Hlook; exact Hnew).
      done.
    - subst tbl. rewrite lookup_insert_ne in Hlook by congruence.
      apply Hpast in Hlook. lia. }
  destruct (rev (partition_of tbl doc_id)) as [|x r]; [done|].
  simpl in Hit. injection Hit as ->.
  assert (head (List.filter
                  (fun it : Item => bool_decide (prompt it.2 = prompt_)
                                    && (expiresAt it.2 >? later))
                  (take 1 (entry :: r)))
          = if later <? clock w + 86400 then Some entry else None) as Hhead.
  { simpl. rewrite bool_decide_eq_true_2 by done. simpl.
    destruct (Z.gtb_spec (clock w + 86400) later), (Z.ltb_spec later (clock w + 86400));
      try lia; done. }
  destruct (head (faults stored.2)) as [[]|]; done.
Qed.

Lemma store_then_check_witness :
  let stored := store_in_cache "d" "r" [] "model" 7 two_prompts_world in
  let entry : Item :=
    (("d"%string, 300),
     {| prompt := "r"; insights := []; modelId := "model";
        chunkCount := 7; expiresAt := 300 + 86400 |}) in
  stored.1 = true
  /\ (check_cache "d" "r" (set_clock 5000 stored.2)).1
     = if 5000 <? 300 + 86400 then Some entry else None.
Proof.
  apply (store_then_check two_prompts_world "d" "r" [] "model" 7 5000).
  - unfold quiet. simpl. constructor.
  - intros ts a. simpl.
    destruct (decide (ts = 200)) as [->|H200]; [lia|].
    destruct (decide (ts = 100)) as [->|H100]; [lia|].
    rewrite lookup_insert_ne by congruence.
    rewrite lookup_insert_ne by congruence.
    rewrite lookup_empty. discriminate.
Defined.

(** ** Listing *)





(** ** Reading does not write *)

(** X11.  Neither lookup writes: in every world, failing or not, the table
    and the clock are as they were. *)
Theorem lookups_leave_table (w : World) (doc_id prompt_ : string) :
  table (check_cache doc_id prompt_ w).2 = table w
  /\ clock (check_cache doc_id prompt_ w).2 = clock w
  /\ table (get_all_insights doc_id w).2 = table w
  /\ clock (get_all_insights doc_id w).2 = clock w.
Proof.
  unfold check_cache, get_all_insights, try_except, table_query. run_op. unfold request.
  destruct w as [tbl now fs]. cbn [faults table clock].
  destruct fs as [|[] fs]; cbn [fst snd table clock];
    repeat match goal with |- context [match ?l with [] => _ | _ :: _ => _ end] =>
      destruct l end; done.
Qed.

(** ** Invalidation that fails half-way *)

Lemma partition_of_keys_NoDup (tbl : gmap Key Attrs) (doc : string) :
  NoDup (partition_of tbl doc).*1.
Proof.
  unfold partition_of. rewrite merge_sort_Permutation.
  apply NoDup_fst_map_to_list.
Qed.

Lemma delete_each_partial (fs : list bool) :
  forall i (items : list Item) n w,
    faults w = replicate i false ++ true :: fs ->
    (i < length items)%nat ->
    exists w', delete_each items n w = (Raised, w')
               /\ table w' = fold_left (fun t (it : Item) => delete it.1 t)
                               (take i items) (table w).
Proof.
  induction i as [|i IH]; intros items n w Hf Hlen;
    destruct items as [|[[d ts] a] items]; simpl in Hlen; try lia;
    simpl in Hf;
    cbn [delete_each]; unfold table_delete_item; run_op;
    rewrite (request_steps w _ _ Hf).
  - by eexists.
  - destruct (IH items (n + 1)
                {| table := delete (d, ts) (table w); clock := clock w;
                   faults := replicate i false ++ true :: fs |})
      as (w' & Hrun & Htbl); [done|lia|].
    exists w'. unfold docId, extractionTimestamp. cbn [fst snd table clock faults].
    split; [exact Hrun|]. rewrite Htbl. done.
Qed.

(** X12.  When the query and the first [i] deletions succeed and the next
    request fails, [invalidate_cache] reports 0 although the [i] oldest
    entries of the document are gone; the others are still stored. *)
Theorem invalidate_cache_partial (w : World) (doc_id : string) (i : nat) (fs : list bool) :
  faults w = replicate (S i) false ++ true :: fs ->
  (i < entries_of w doc_id)%nat ->
  (invalidate_cache doc_id w).1 = 0
  /\ forall (j : nat) (it : Item),
       partition_of (table w) doc_id !! j = Some it ->
       table (invalidate_cache doc_id w).2 !! it.1
       = if decide (j < i)%nat then None else Some it.2.
Proof.
  intros Hf Hi. rewrite <- length_partition_of in Hi.
  set (items := partition_of (table w) doc_id) in *.
  destruct (delete_each_partial fs i items 0
              {| table := table w; clock := clock w;
                 faults := replicate i false ++ true :: fs |})
    as (w' & Hrun & Htbl); [done|done|].
  assert (invalidate_cache doc_id w = (0, w')) as ->.
  { unfold invalidate_cache, try_except, table_query. run_op.
    rewrite (request_steps w false (replicate i false ++ true :: fs) Hf). cbn [table].
    unfold select. rewrite filter_all. fold items. by rewrite Hrun. }
  split; [done|]. intros j it Hj. cbn [snd]. rewrite Htbl. cbn [table].
  pose proof (partition_of_keys_NoDup (table w) doc_id) as Hnodup. fold items in Hnodup.
  rewrite <- (take_drop i items), fmap_app in Hnodup.
  apply NoDup_app in Hnodup as (_ & Hdisj & _).
  destruct (decide (j < i)%nat) as [Hlt|Hge].
  - apply lookup_delete_all_deleted. apply list_elem_of_fmap. exists it. split; [done|].
    apply list_elem_of_lookup. exists j. by rewrite lookup_take_lt.
  - rewrite lookup_delete_all_other.
    + apply (elem_of_partition_of (table w) doc_id it). apply list_elem_of_lookup. eauto.
    + intros Hin. apply (Hdisj it.1 Hin). apply list_elem_of_fmap. exists it.
      split; [done|]. apply list_elem_of_lookup. exists (j - i)%nat.
      rewrite lookup_drop. replace (i + (j - i))%nat with j by lia. exact Hj.
Qed.

Lemma invalidate_cache_partial_witness :
  (invalidate_cache "d" failing_world).1 = 0
  /\ forall (j : nat) (it : Item),
       partition_of (table failing_world) "d" !! j = Some it ->
       table (invalidate_cache "d" failing_world).2 !! it.1
       = if decide (j < 1)%nat then None else Some it.2.
Proof.
  apply (invalidate_cache_partial failing_world "d" 1 []).
  - reflexivity.
  - vm_compute. lia.
Defined.

(** ** Invalidating twice *)

Lemma invalidate_cache_clears (w : World) (doc_id : string) :
  quiet w ->
  quiet (invalidate_cache doc_id w).2
  /\ forall ts, table (invalidate_cache doc_id w).2 !! (doc_id, ts) = None.
Proof.
  intros Hq.
  destruct (invalidate_cache_quiet w doc_id Hq) as (w' & -> & Htbl & _ & Hq').
  split; [done|]. intros ts. cbn [snd]. rewrite Htbl.
  destruct (decide ((doc_id, ts) ∈ (partition_of (table w) doc_id).*1)) as [Hin|Hout].
  - by apply lookup_delete_all_deleted.
  - rewrite (lookup_delete_all_other _ _ _ Hout).
    destruct (table w !! (doc_id, ts)) as [a|] eqn:Hlook; [|done].
    exfalso. apply Hout. apply list_elem_of_fmap.
    exists ((doc_id, ts), a). split; [done|]. by apply elem_of_partition_of.
Qed.

(** X13.  After an invalidation that went through, a second one finds nothing
    to delete and reports 0, and [check_cache] misses for every prompt. *)
Theorem invalidate_cache_twice (w : World) (doc_id prompt_ : string) :
  quiet w ->
  let w1 := (invalidate_cache doc_id w).2 in
  (invalidate_cache doc_id w1).1 = 0
  /\ table (invalidate_cache doc_id w1).2 = table w1
  /\ (check_cache doc_id prompt_ w1).1 = None.
Proof.
  intros Hq w1.
  destruct (invalidate_cache_clears w doc_id Hq) as [Hq1 Hgone]. fold w1 in Hq1, Hgone.
  pose proof (partition_of_none (table w1) doc_id Hgone) as Hnone.
  destruct (invalidate_cache_quiet w1 doc_id Hq1) as (w2 & -> & Htbl & _).
  cbn [fst snd]. rewrite Htbl, Hnone.
  rewrite <- length_partition_of, Hnone. repeat split.
  rewrite check_cache_result, Hnone. by destruct (head (faults w1)) as [[]|].
Qed.

Lemma invalidate_cache_twice_witness :
  quiet mixed_world
  /\ (let w1 := (invalidate_cache "d" mixed_world).2 in
      (invalidate_cache "d" w1).1 = 0
      /\ table (invalidate_cache "d" w1).2 = table w1
      /\ (check_cache "d" "q" w1).1 = None).
Proof.
  assert (quiet mixed_world) as Hq by (unfold quiet; simpl; repeat constructor).
  split; [exact Hq|].
  exact (invalidate_cache_twice mixed_world "d" "q" Hq).
Defined.

(* ===================================================================== *)
(** * Part VI: the insight generator                                      *)
(* ===================================================================== *)

Import InsightGenerator.

(** ** Schema validation *)

Lemma lookup_add_default (d : gmap string Json) (f k : string) :
  add_default d f !! k
  = if decide (k = f)
    then Some (dict_get d f (if String.eqb f "keyPoints" then JList []
                             else if String.eqb f "entities" then JList []
                             else JStr ""))
    else d !! k.
Proof.
  unfold add_default, has_key, dict_get.
  destruct (decide (k = f)) as [->|Hne].
  - destruct (d !! f) eqn:Hf; simpl; [done|].
    repeat case_match; by rewrite lookup_insert_eq.
  - destruct (d !! f); simpl; [done|].
    repeat case_match; by rewrite lookup_insert_ne.
Qed.

Lemma lookup_ensure_list (d : gmap string Json) (f k : string) :
  ensure_list f d !! k
  = if decide (k = f)
    then match d !! f with
         | Some (JList l) => Some (JList l)
         | Some _ => Some (JList [])
         | None => None
         end
    else d !! k.
Proof.
  unfold ensure_list, dict_get.
  destruct (decide (k = f)) as [->|Hne].
  - destruct (d !! f) as [[]|] eqn:Hf; simpl; by rewrite ?lookup_insert_eq.
  - destruct (d !! f) as [[]|]; simpl; by rewrite ?lookup_insert_ne.
Qed.

Lemma lookup_ensure_key (d : gmap string Json) (f k : string) (v : Json) :
  ensure_key f v d !! k
  = if decide (k = f) then Some (dict_get d f v) else d !! k.
Proof.
  unfold ensure_key, has_key, dict_get.
  destruct (decide (k = f)) as [->|Hne].
  - destruct (d !! f) eqn:Hf; simpl; by rewrite ?lookup_insert_eq.
  - destruct (d !! f); simpl; by rewrite ?lookup_insert_ne.
Qed.

(** Every lookup in the validated dictionary, in terms of the one it was
    given. *)
Lemma validate_lookup (d : gmap string Json) (k : string) :
  validate_insights_schema d !! k
  = if decide (k = "confidence"%string) then Some (dict_get d k (JFloat 1 (-1)))
    else if decide (k = "metadata"%string) then Some (dict_get d k (JObj ∅))
    else if decide (k = "entities"%string) then Some (as_list (d !! k))
    else if decide (k = "keyPoints"%string) then Some (as_list (d !! k))
    else if decide (k = "answer"%string) then Some (dict_get d k (JStr ""))
    else if decide (k = "summary"%string) then Some (dict_get d k (JStr ""))
    else d !! k.
Proof.
  unfold validate_insights_schema, required_fields; cbn [fold_left].
  repeat (rewrite ?lookup_ensure_key, ?lookup_ensure_list, ?lookup_add_default;
          unfold dict_get; cbn [String.eqb Ascii.eqb Bool.eqb];
          try (case_decide; subst)); try done.
  all: unfold as_list; repeat case_match; simplify_eq; done.
Qed.

Lemma validate_establishes_schema (d : gmap string Json) :
  well_formed (validate_insights_schema d).
Proof.
  unfold well_formed. split; [|split].
  - intros field Hin. rewrite validate_lookup. simpl in Hin.
    destruct Hin as [<-|[<-|[<-|[<-|[<-|[<-|[]]]]]]]; repeat case_decide; try done; eauto.
  - rewrite validate_lookup. repeat case_decide; try done.
    unfold as_list. destruct (d !! "keyPoints"%string) as [[]|]; by eexists.
  - rewrite validate_lookup. repeat case_decide; try done.
    unfold as_list. destruct (d !! "entities"%string) as [[]|]; by eexists.
Qed.

(** X14.  After validation the six fields are present, and [keyPoints] and
    [entities] hold lists, whatever dictionary came in. *)
Theorem validate_well_formed (d : gmap string Json) :
  well_formed (validate_insights_schema d).
Proof. apply validate_establishes_schema. Qed.



(** X16.  A dictionary that already has the shape is returned as it is, so
    validating twice is the same as validating once. *)
Theorem validate_idempotent (d : gmap string Json) :
  (well_formed d -> validate_insights_schema d = d)
  /\ validate_insights_schema (validate_insights_schema d) = validate_insights_schema d.
Proof.
  assert (forall d', well_formed d' -> validate_insights_schema d' = d') as Hfix.
  { intros d' (Hkeys & [l1 Hk] & [l2 He]). apply map_eq. intros k.
    rewrite validate_lookup. unfold dict_get, as_list.
    repeat case_decide; subst; try done.
    - destruct (Hkeys "confidence"%string) as [v ->]; [simpl; tauto|done].
    - destruct (Hkeys "metadata"%string) as [v ->]; [simpl; tauto|done].
    - by rewrite He.
    - by rewrite Hk.
    - destruct (Hkeys "answer"%string) as [v ->]; [simpl; tauto|done].
    - destruct (Hkeys "summary"%string) as [v ->]; [simpl; tauto|done]. }
  split; [apply Hfix|]. apply Hfix, validate_establishes_schema.
Qed.

Lemma validate_idempotent_witness :
  let d := error_structure "Expecting value" in
  well_formed d /\ validate_insights_schema d = d.
Proof.
  intros d.
  assert (well_formed d) as Hwf.
  { split; [|split].
    - intros field [<-|[<-|[<-|[<-|[<-|[<-|[]]]]]]]; vm_compute; eauto.
    - exists []. vm_compute. reflexivity.
    - exists []. vm_compute. reflexivity. }
  split; [exact Hwf|]. exact (proj1 (validate_idempotent d) Hwf).
Defined.

(** ** Finding the braces *)

Lemma startswith_char (c : ascii) (s : str) :
  startswith [c] s = match s with b :: _ => Ascii.eqb c b | [] => false end.
Proof. destruct s; simpl; [done|]. apply andb_true_r. Qed.


Lemma find_from_first (c : ascii) (pre rest : str) (i : Z) :
  ~ In c pre -> find_from [c] (pre ++ c :: rest) i = i + len pre.
Proof.
  revert i. induction pre as [|b pre IH]; intros i Hc.
  - cbn [app find_from]. rewrite startswith_char, Ascii.eqb_refl. unfold len. simpl. lia.
  - cbn [app find_from]. rewrite startswith_char.
    destruct (Ascii.eqb_spec c b) as [->|Hne]; [exfalso; apply Hc; by left|].
    rewrite IH by (intros Hin; apply Hc; by right).
    unfold len. simpl. lia.
Qed.


Lemma rfind_from_absent (c : ascii) (s : str) (i : Z) :
  ~ In c s -> rfind_from [c] s i = -1.
Proof.
  revert i. induction s as [|b s IH]; intros i Hc; [done|].
  cbn [rfind_from]. rewrite IH by (intros Hin; apply Hc; by right).
  rewrite startswith_char. simpl.
  destruct (Ascii.eqb_spec c b) as [->|Hne]; [exfalso; apply Hc; by left|done].
Qed.


Lemma rfind_from_last (c : ascii) (x post : str) (i : Z) :
  0 <= i -> ~ In c post -> rfind_from [c] (x ++ c :: post) i = i + len x.
Proof.
  revert i. induction x as [|b x IH]; intros i Hi Hc.
  - cbn [app rfind_from]. rewrite (rfind_from_absent c post (i + 1) Hc).
    rewrite startswith_char, Ascii.eqb_refl. unfold len. simpl. lia.
  - cbn [app rfind_from]. rewrite IH by (done || lia).
    destruct (Z.eqb_spec (i + 1 + len x) (-1)) as [Heq|_]; [unfold len in Heq; lia|].
    unfold len. simpl. lia.
Qed.

Lemma py_slice_middle (pre body post : str) :
  py_slice (pre ++ body ++ post) (len pre) (Some (len pre + len body)) = body.
Proof.
  unfold py_slice, clamp_index, len. rewrite !length_app.
  destruct (Z.ltb_spec (Z.of_nat (length pre)) 0); [lia|].
  destruct (Z.ltb_spec (Z.of_nat (length pre) + Z.of_nat (length body)) 0); [lia|].
  replace (Z.to_nat (Z.min (Z.of_nat (length pre)) _)) with (length pre) by lia.
  replace (Z.to_nat (_ - _)) with (length body) by lia.
  rewrite drop_app_length. apply take_app_length.
Qed.

(** ** Parsing the model response *)

Lemma parse_response_between (json_loads : str -> loaded) (pre mid post : str) :
  ~ In "{"%char pre -> ~ In "}"%char post ->
  parse_response json_loads (pre ++ "{"%char :: mid ++ "}"%char :: post)
  = match json_loads ("{"%char :: mid ++ ["}"%char]) with
    | Loaded insights => Ok (validate_insights_schema insights)
    | JSONDecodeError message => Ok (error_structure message)
    | LoadFailure => Raise OtherError
    end.
Proof.
  intros Hpre Hpost. unfold parse_response, find, rfind, lit. cbn [list_ascii_of_string].
  set (txt := pre ++ "{"%char :: mid ++ "}"%char :: post).
  assert (find_from ["{"%char] txt 0 = len pre) as ->.
  { subst txt. rewrite (find_from_first "{" pre _ 0 Hpre). lia. }
  assert (rfind_from ["}"%char] txt 0 + 1 = len pre + len ("{"%char :: mid ++ ["}"%char]))
    as ->.
  { subst txt.
    replace (pre ++ "{"%char :: mid ++ "}"%char :: post)
      with ((pre ++ "{"%char :: mid) ++ "}"%char :: post) by (by rewrite <- app_assoc).
    rewrite (rfind_from_last "}" _ post 0) by (done || lia).
    unfold len. simpl. rewrite !length_app. simpl. lia. }
  destruct (Z.eqb_spec (len pre) (-1)) as [H|_]; [unfold len in H; lia|].
  destruct (Z.eqb_spec (len pre + len ("{"%char :: mid ++ ["}"%char])) 0) as [H|_];
    [unfold len in H; simpl in H; lia|].
  cbn [orb].
  replace txt with (pre ++ ("{"%char :: mid ++ ["}"%char]) ++ post)
    by (subst txt; simpl; by rewrite <- app_assoc).
  by rewrite py_slice_middle.
Qed.

(** X17.  Whatever surrounds the outermost pair of braces is ignored. *)
Theorem parse_response_ignores_surroundings
    (json_loads : str -> loaded) (pre mid post : str) :
  ~ In "{"%char pre -> ~ In "}"%char post ->
  parse_response json_loads (pre ++ "{"%char :: mid ++ "}"%char :: post)
  = parse_response json_loads ("{"%char :: mid ++ ["}"%char]).
Proof.
  intros Hpre Hpost.
  rewrite (parse_response_between json_loads pre mid post Hpre Hpost).
  symmetry. apply (parse_response_between json_loads [] mid []); by intros [].
Qed.

Lemma parse_response_ignores_surroundings_witness :
  parse_response (fun _ => Loaded ∅) (lit "Here is the JSON: {}. Done")
  = parse_response (fun _ => Loaded ∅) (lit "{}").
Proof.
  apply (parse_response_ignores_surroundings (fun _ => Loaded ∅)
           (lit "Here is the JSON: ") [] (lit ". Done")).
  - intros Hin. simpl in Hin. repeat (destruct Hin as [Hin|Hin]; [discriminate Hin|]). done.
  - intros Hin. simpl in Hin. repeat (destruct Hin as [Hin|Hin]; [discriminate Hin|]). done.
Defined.


(** X19.  A dictionary that [_parse_response] returns has the six fields, the
    two lists being lists, whether it was validated or stands for a
    decoding error. *)
Theorem parse_response_well_formed (json_loads : str -> loaded)
    (response_text : str) (insights : gmap string Json) :
  parse_response json_loads response_text = Ok insights ->
  well_formed insights.
Proof.
  unfold parse_response. destruct (_ || _); [done|].
  destruct (json_loads _) as [d|message|]; [| |done]; intros [= <-].
  - apply validate_establishes_schema.
  - split; [|split].
    + intros field [<-|[<-|[<-|[<-|[<-|[<-|[]]]]]]]; vm_compute; eauto.
    + exists []. vm_compute. reflexivity.
    + exists []. vm_compute. reflexivity.
Qed.

Lemma parse_response_well_formed_witness :
  well_formed (error_structure "Expecting value").
Proof.
  apply (parse_response_well_formed (fun _ => JSONDecodeError "Expecting value")
           (lit "{oops}")).
  vm_compute. reflexivity.
Defined.

(* ===================================================================== *)
(** * Part VII: the image insights handler                                *)
(* ===================================================================== *)

Import ImageInsights Requests.

(** ** Who is calling *)

Lemma dict_get_Some (d : gmap string Json) (k : string) (v fallback : Json) :
  d !! k = Some v -> dict_get d k fallback = v.
Proof. intros H. unfold dict_get. by rewrite H. Qed.

Lemma dict_get_None (d : gmap string Json) (k : string) (fallback : Json) :
  d !! k = None -> dict_get d k fallback = fallback.
Proof. intros H. unfold dict_get. by rewrite H. Qed.

Lemma truthy_nonempty (m : gmap string Json) (k : string) (v : Json) :
  m !! k = Some v -> truthy (JObj m) = true.
Proof.
  intros Hk. cbn [truthy]. apply negb_true_iff, bool_decide_eq_false. intros ->.
  by rewrite lookup_empty in Hk.
Qed.

Lemma claimed_user_first (claims : gmap string Json) (sub : Json) :
  claims !! "sub"%string = Some sub -> truthy sub = true ->
  claimed_user (JObj claims) = Done sub.
Proof.
  intros Hsub Ht. unfold claimed_user. cbn [py_get].
  rewrite (dict_get_Some _ _ _ _ Hsub). cbn [mbind attempt_bind]. by rewrite Ht.
Qed.

(** X20.  When the authorizer carries claims with a [sub] that counts as
    true, that is the user, whatever else the event holds (other claims,
    a [jwt] section). *)
Theorem get_user_id_prefers_sub (event request_context authorizer claims : gmap string Json)
    (sub : Json) :
  event !! "requestContext"%string = Some (JObj request_context) ->
  request_context !! "authorizer"%string = Some (JObj authorizer) ->
  authorizer !! "claims"%string = Some (JObj claims) ->
  claims !! "sub"%string = Some sub ->
  truthy sub = true ->
  get_user_id_from_event event = sub.
Proof.
  intros Hrc Hau Hcl Hsub Ht.
  unfold get_user_id_from_event, get_user_id_body.
  rewrite (dict_get_Some _ _ _ _ Hrc). cbn [py_get mbind attempt_bind].
  rewrite (dict_get_Some _ _ _ _ Hau). cbn [py_get mbind attempt_bind].
  rewrite (dict_get_Some _ _ _ _ Hcl).
  rewrite (truthy_nonempty claims _ _ Hsub).
  rewrite (claimed_user_first claims sub Hsub Ht). cbn [mbind attempt_bind].
  by rewrite Ht.
Qed.

Lemma get_user_id_prefers_sub_witness :
  get_user_id_from_event analyze_event = JStr "user-1".
Proof.
  apply (get_user_id_prefers_sub analyze_event caller_context caller_authorizer
           caller_claims); reflexivity.
Defined.

(** X21.  The result is [None] or a value that counts as true: an empty user
    name is never returned. *)
Theorem get_user_id_none_or_truthy (event : gmap string Json) :
  get_user_id_from_event event = JNull
  \/ truthy (get_user_id_from_event event) = true.
Proof.
  unfold get_user_id_from_event, get_user_id_body.
  destruct (py_get _ "authorizer" _) as [authorizer|]; cbn [mbind attempt_bind]; [|by left].
  destruct (py_get authorizer "claims" _) as [claims|]; cbn [mbind attempt_bind]; [|by left].
  assert (forall (from : attempt (option Json)) (rest : attempt Json),
            (forall u, from = Done (Some u) -> truthy u = true) ->
            (match rest with Done v => v | Thrown _ => JNull end = JNull
             \/ truthy (match rest with Done v => v | Thrown _ => JNull end) = true) ->
            let r := x ← from; match x with Some u => Done u | None => rest end in
            match r with Done v => v | Thrown _ => JNull end = JNull
            \/ truthy (match r with Done v => v | Thrown _ => JNull end) = true)
    as Hstep.
  { intros [[u|]|] rest Hfrom Hrest; cbn [mbind attempt_bind]; [|done|by left].
    right. by apply Hfrom. }
  assert (forall c : Json,
            forall u, (user_id ← claimed_user c;
                       Done (if truthy user_id then Some user_id else None))
                      = Done (Some u) -> truthy u = true) as Hclaimed.
  { intros c u. destruct (claimed_user c) as [v|]; cbn [mbind attempt_bind]; [|done].
    destruct (truthy v) eqn:Hv; [|done]. by intros [= <-]. }
  apply Hstep.
  - intros u. destruct (truthy claims); [apply Hclaimed|done].
  - destruct (py_get authorizer "jwt" _) as [jwt|]; cbn [mbind attempt_bind]; [|by left].
    apply Hstep; [|by left].
    intros u. destruct (truthy jwt); [|done].
    destruct (py_get jwt "claims" _) as [jwt_claims|]; cbn [mbind attempt_bind]; [|done].
    apply Hclaimed.
Qed.

(** ** Routing *)

Lemma is_str_true (v : Json) (s : string) : is_str v s = true <-> v = JStr s.
Proof.
  destruct v; simpl; try (split; [done|intros [=]]).
  rewrite String.eqb_eq. split; [by intros ->|by intros [= ->]].
Qed.

Section HandlerProperties.
Variable json_loads : Json -> attempt Json.
Variable analyze_image_with_claude : Json -> Json -> attempt (gmap string Json).
Variable decode_qr_code : Json -> Json -> Json.


Lemma handle_analyze_image_status (event : gmap string Json) :
  In (statusCode (handle_analyze_image json_loads analyze_image_with_claude decode_qr_code event)) [200; 400; 401; 500].
Proof.
  unfold handle_analyze_image, handle_analyze_image_body.
  destruct (negb (truthy (get_user_id_from_event event))); [simpl; tauto|].
  destruct (json_loads _) as [b|]; cbn [mbind attempt_bind]; [|simpl; tauto].
  destruct (py_get b "image" _) as [image|]; cbn [mbind attempt_bind]; [|simpl; tauto].
  destruct (py_get b "prompt" _) as [prompt_|]; cbn [mbind attempt_bind]; [|simpl; tauto].
  destruct (negb (truthy image)); [simpl; tauto|].
  destruct (analyze_image_with_claude image prompt_); cbn [mbind attempt_bind];
    simpl; tauto.
Qed.

(** X22.  [handler] always returns a response, and its status is one of 200,
    400, 401, 404 and 500, whatever the event and the collaborators. *)
Theorem handler_status (event : gmap string Json) :
  In (statusCode (handler json_loads analyze_image_with_claude decode_qr_code event)) [200; 400; 401; 404; 500].
Proof.
  unfold handler. destruct (resolve_route event) as [[m p]|]; [|simpl; tauto].
  destruct (_ && _); [|simpl; tauto].
  pose proof (handle_analyze_image_status event) as H. simpl in *. tauto.
Qed.

(** X23.  A request whose method and path are not POST
    /image-insights/analyze is answered 404, and no collaborator is
    consulted. *)
Theorem handler_unknown_route (event : gmap string Json) (m p : Json) :
  resolve_route event = Done (m, p) ->
  m <> JStr "POST" \/ p <> JStr "/image-insights/analyze" ->
  handler json_loads analyze_image_with_claude decode_qr_code event
  = error_response 404 (JStr "Endpoint not found").
Proof.
  intros Hroute Hother. unfold handler. rewrite Hroute.
  destruct (is_str m "POST" && is_str p "/image-insights/analyze") eqn:Hmatch; [|done].
  apply andb_prop in Hmatch as [Hm Hp].
  apply is_str_true in Hm, Hp. tauto.
Qed.

(** X24.  The fallback for the method is computed even when [httpMethod] is
    present: an event whose [requestContext] is not a dictionary is
    answered 500, with the message of the attribute error. *)
Theorem handler_bad_request_context (event : gmap string Json) (v : Json) :
  event !! "requestContext"%string = Some v ->
  (forall m, v <> JObj m) ->
  handler json_loads analyze_image_with_claude decode_qr_code event
  = error_response 500 (JStr ("'" ++ type_name v ++ "' object has no attribute 'get'")).
Proof.
  intros Hrc Hv. unfold handler, resolve_route.
  rewrite (dict_get_Some _ _ _ _ Hrc).
  destruct v; try done. by destruct (Hv m).
Qed.

(** X25.  On the analyze route a request without a user is answered 401
    before its body is read. *)
Theorem handler_checks_caller_first (event : gmap string Json) :
  resolve_route event = Done (JStr "POST", JStr "/image-insights/analyze") ->
  truthy (get_user_id_from_event event) = false ->
  handler json_loads analyze_image_with_claude decode_qr_code event
  = error_response 401 (JStr "Unauthorized").
Proof.
  intros Hroute Huser. unfold handler. rewrite Hroute. cbn [is_str].
  rewrite !String.eqb_refl. cbn [andb].
  unfold handle_analyze_image, handle_analyze_image_body. by rewrite Huser.
Qed.

(** X26.  A known caller whose body has no image is answered 400, and the
    model is not called. *)
Theorem handler_requires_image (event body_ : gmap string Json) :
  resolve_route event = Done (JStr "POST", JStr "/image-insights/analyze") ->
  truthy (get_user_id_from_event event) = true ->
  json_loads (dict_get event "body" (JStr "{}")) = Done (JObj body_) ->
  truthy (dict_get body_ "image" JNull) = false ->
  handler json_loads analyze_image_with_claude decode_qr_code event
  = error_response 400 (JStr "image (base64) is required").
Proof.
  intros Hroute Huser Hbody Himage. unfold handler. rewrite Hroute. cbn [is_str].
  rewrite !String.eqb_refl. cbn [andb].
  unfold handle_analyze_image, handle_analyze_image_body. rewrite Huser, Hbody.
  cbn [negb mbind attempt_bind py_get]. by rewrite Himage.
Qed.


(** X28.  When the analysis raises, the answer is 500 with a fixed message;
    the message of the exception is not disclosed. *)
Theorem handler_analysis_failure (event body_ : gmap string Json) (message : string) :
  resolve_route event = Done (JStr "POST", JStr "/image-insights/analyze") ->
  truthy (get_user_id_from_event event) = true ->
  json_loads (dict_get event "body" (JStr "{}")) = Done (JObj body_) ->
  truthy (dict_get body_ "image" JNull) = true ->
  analyze_image_with_claude (dict_get body_ "image" JNull) (dict_get body_ "prompt" (JStr ""))
  = Thrown message ->
  handler json_loads analyze_image_with_claude decode_qr_code event
  = error_response 500 (JStr "Failed to analyze image").
Proof.
  intros Hroute Huser Hbody Himage Hanalysis. unfold handler. rewrite Hroute. cbn [is_str].
  rewrite !String.eqb_refl. cbn [andb].
  unfold handle_analyze_image, handle_analyze_image_body. rewrite Huser, Hbody.
  cbn [negb mbind attempt_bind py_get]. by rewrite Himage, Hanalysis.
Qed.
End HandlerProperties.

Lemma handler_unknown_route_witness :
  handler loads_image analyze_finds_qr decode_finds status_event
  = error_response 404 (JStr "Endpoint not found").
Proof.
  apply (handler_unknown_route loads_image analyze_finds_qr decode_finds status_event
           (JStr "GET") (JStr "/status")).
  - reflexivity.
  - left. discriminate.
Defined.

Lemma handler_bad_request_context_witness :
  handler loads_image analyze_finds_qr decode_finds null_context_event
  = error_response 500 (JStr "'NoneType' object has no attribute 'get'").
Proof.
  apply (handler_bad_request_context loads_image analyze_finds_qr decode_finds
           null_context_event JNull).
  - reflexivity.
  - discriminate.
Defined.

Lemma handler_checks_caller_first_witness :
  handler loads_image analyze_finds_qr decode_finds anonymous_event
  = error_response 401 (JStr "Unauthorized").
Proof.
  apply handler_checks_caller_first; reflexivity.
Defined.

Lemma handler_requires_image_witness :
  handler loads_empty analyze_finds_qr decode_finds analyze_event
  = error_response 400 (JStr "image (base64) is required").
Proof.
  apply (handler_requires_image loads_empty analyze_finds_qr decode_finds analyze_event ∅);
    reflexivity.
Defined.


Lemma handler_analysis_failure_witness :
  handler loads_image analyze_fails decode_finds analyze_event
  = error_response 500 (JStr "Failed to analyze image").
Proof.
  apply (handler_analysis_failure loads_image analyze_fails decode_finds analyze_event
           {[ "image"%string := JStr "aGVsbG8=" ]} "throttled"); reflexivity.
Defined.
